(** * AmourQR: the category router and the bypass credential strategy

    A shallow embedding of
      - [src/server/api/routers/category.router.ts] (create, delete, getAll,
        update, updatePosition), and
      - the [authorize] callback of [src/pages/api/auth/[...nextauth].ts],
    followed by the properties the specification states about them.

    Modelling choices.
      - The relational store is a record of tables, each table a list of rows
        in storage order.  [Category.id] is the primary key; the invariant
        [wf_store] says so and is kept by every write the router commits.
      - Prisma calls are functions [DbOp A] from a store to an error or a
        result with the next store; [transaction] runs a list of them and
        commits all or nothing.
      - The image store (ImageKit and the helpers of [src/server/imageUtil])
        is a parameter [ImageStore]: for each call it says whether the call
        resolves (and with what) or rejects.  Every call issued is recorded
        in the [trace] of the world, in issue order, as are the [console.error]
        lines.
      - A procedure is a computation [M A] over a [World] (store and trace)
        that yields an error or a value together with the world it leaves.
      - [position] is an unbounded integer; the column width of the schema
        and foreign keys are not part of the model. *)

From Stdlib Require Import String List ZArith Lia Bool Sorted Permutation.
Import ListNotations.
Local Open Scope Z_scope.
Local Open Scope string_scope.

(** ** JavaScript values *)

(** [if (x)] on an optional string: [undefined], [null] and the empty string
    are falsy. *)
Definition truthy (x : option string) : bool :=
  match x with
  | Some s => negb (s =? "")
  | None => false
  end.

(** [a === b] on optional strings. *)
Definition strict_eq (a b : option string) : bool :=
  match a, b with
  | Some x, Some y => x =? y
  | None, None => true
  | _, _ => false
  end.

(** ** Data model *)

(** Modelled from the spec: the Prisma schema is not part of the sources; the
    rows carry the fields the router reads and writes and the spec lists. *)
Module Category.
Record t := mk
  { id : string;
    menuId : string;
    userId : string;
    name : string;
    position : Z;
    imageUrl : option string }.
End Category.

Module MenuItem.
Record t := mk
  { id : string;
    categoryId : string;
    position : Z;
    imageId : option string }.
End MenuItem.

Module Image.
Record t := mk { id : string }.
End Image.

(** Modelled from the spec: a menu and its owner.  The category router never
    reads this table. *)
Module Menu.
Record t := mk { id : string; userId : string }.
End Menu.

Record Store := mkStore
  { categories : list Category.t;
    menuItems : list MenuItem.t;
    images : list Image.t;
    menus : list Menu.t }.

(** [Category.id] is the primary key. *)
Definition wf_store (d : Store) : Prop :=
  NoDup (map Category.id (categories d)).

Inductive Error :=
| RecordNotFound
| UniqueConstraintFailed
| ExternalServiceError.

Definition Result (A : Type) : Type := (Error + A)%type.

(** ** The relational store *)

Definition DbOp (A : Type) : Type := Store -> Result (A * Store).

(** [orderBy: { position: "asc" }], stable in storage order. *)
Fixpoint insert_by {A} (key : A -> Z) (x : A) (l : list A) : list A :=
  match l with
  | [] => [x]
  | y :: l' => if (key x <=? key y)%Z then x :: l else y :: insert_by key x l'
  end.

Definition orderBy_asc {A} (key : A -> Z) (l : list A) : list A :=
  fold_right (insert_by key) [] l.

Record ItemWithImage := mkItemWithImage
  { item : MenuItem.t;
    image : option Image.t }.

Record CategoryWithItems := mkCategoryWithItems
  { category : Category.t;
    items : list ItemWithImage }.

Definition items_of (d : Store) (categoryId : string) : list MenuItem.t :=
  filter (fun i => MenuItem.categoryId i =? categoryId) (menuItems d).

Definition image_of (d : Store) (i : MenuItem.t) : option Image.t :=
  match MenuItem.imageId i with
  | Some k => find (fun im => Image.id im =? k) (images d)
  | None => None
  end.

(** [include: { items: { include: { image: true } } }] *)
Definition include_items (d : Store) (c : Category.t) : CategoryWithItems :=
  {| category := c;
     items := map (fun i => {| item := i; image := image_of d i |})
                  (items_of d (Category.id c)) |}.

(** [include: { items: { include: { image: true }, orderBy: { position: "asc" } } }] *)
Definition include_items_ordered (d : Store) (c : Category.t) : CategoryWithItems :=
  {| category := c;
     items := map (fun i => {| item := i; image := image_of d i |})
                  (orderBy_asc MenuItem.position (items_of d (Category.id c))) |}.

Definition in_menu_of (menuId userId : string) (c : Category.t) : bool :=
  (Category.menuId c =? menuId) && (Category.userId c =? userId).

Definition is_id_userId (id userId : string) (c : Category.t) : bool :=
  (Category.id c =? id) && (Category.userId c =? userId).

(** [category.count({ where: { menuId } })] *)
Definition category_count (menuId : string) (d : Store) : nat :=
  length (filter (fun c => Category.menuId c =? menuId) (categories d)).

(** The row of greatest position, the earliest one among equals. *)
Fixpoint greatest (l : list Category.t) : option Category.t :=
  match l with
  | [] => None
  | c :: l' =>
      match greatest l' with
      | Some m => if (Category.position c <? Category.position m)%Z then Some m else Some c
      | None => Some c
      end
  end.

(** [category.findFirst({ orderBy: { position: "desc" }, where: { menuId, userId } })] *)
Definition category_findFirst_desc (menuId userId : string) (d : Store)
  : option Category.t :=
  greatest (filter (in_menu_of menuId userId) (categories d)).

(** [category.findUniqueOrThrow({ where: { id_userId: { id, userId } } })] *)
Definition category_findUniqueOrThrow (id userId : string) : DbOp Category.t :=
  fun d =>
    match find (is_id_userId id userId) (categories d) with
    | Some c => inr (c, d)
    | None => inl RecordNotFound
    end.

(** [category.create({ data })]: the primary key must be new. *)
Definition category_create (data : Category.t) : DbOp CategoryWithItems :=
  fun d =>
    if existsb (fun c => Category.id c =? Category.id data) (categories d)
    then inl UniqueConstraintFailed
    else
      let d' := {| categories := categories d ++ [data];
                   menuItems := menuItems d;
                   images := images d;
                   menus := menus d |} in
      inr (include_items d' data, d').

(** [category.update({ data, where: { id_userId: { id, userId } } })] *)
Definition category_update (id userId : string) (data : Category.t -> Category.t)
  : DbOp Category.t :=
  fun d =>
    match find (is_id_userId id userId) (categories d) with
    | Some c =>
        inr (data c,
             {| categories :=
                  map (fun x => if is_id_userId id userId x then data x else x)
                      (categories d);
                menuItems := menuItems d;
                images := images d;
                menus := menus d |})
    | None => inl RecordNotFound
    end.

(** [category.delete({ where: { id_userId: { id, userId } } })] *)
Definition category_delete (id userId : string) : DbOp Category.t :=
  fun d =>
    match find (is_id_userId id userId) (categories d) with
    | Some c =>
        inr (c,
             {| categories :=
                  filter (fun x => negb (is_id_userId id userId x)) (categories d);
                menuItems := menuItems d;
                images := images d;
                menus := menus d |})
    | None => inl RecordNotFound
    end.

(** [menuItem.deleteMany({ where: { categoryId } })] *)
Definition menuItem_deleteMany (categoryId : string) : DbOp nat :=
  fun d =>
    inr (length (items_of d categoryId),
         {| categories := categories d;
            menuItems :=
              filter (fun i => negb (MenuItem.categoryId i =? categoryId)) (menuItems d);
            images := images d;
            menus := menus d |}).

Definition mem_string (x : string) (l : list string) : bool :=
  existsb (fun y => y =? x) l.

(** [image.deleteMany({ where: { id: { in: ids } } })] *)
Definition image_deleteMany (ids : list string) : DbOp nat :=
  fun d =>
    inr (length (filter (fun im => mem_string (Image.id im) ids) (images d)),
         {| categories := categories d;
            menuItems := menuItems d;
            images := filter (fun im => negb (mem_string (Image.id im) ids)) (images d);
            menus := menus d |}).

(** [category.findMany({ include, orderBy: { position: "asc" }, where: { menuId, userId } })] *)
Definition category_findMany (menuId userId : string) (d : Store)
  : list CategoryWithItems :=
  map (include_items_ordered d)
      (orderBy_asc Category.position
                   (filter (in_menu_of menuId userId) (categories d))).

(** A query whose result is dropped ([PrismaPromise<unknown>]). *)
Definition unknown {A} (op : DbOp A) : DbOp unit :=
  fun d =>
    match op d with
    | inl e => inl e
    | inr (_, d') => inr (tt, d')
    end.

(** A query followed by [include] on the row it returns. *)
Definition including (op : DbOp Category.t) : DbOp CategoryWithItems :=
  fun d =>
    match op d with
    | inl e => inl e
    | inr (c, d') => inr (include_items d' c, d')
    end.

(** [prisma.$transaction(ops)]: the queries run in order; the first failure
    rolls everything back. *)
Fixpoint transaction {A} (ops : list (DbOp A)) : DbOp (list A) :=
  fun d =>
    match ops with
    | [] => inr ([], d)
    | op :: rest =>
        match op d with
        | inl e => inl e
        | inr (a, d1) =>
            match transaction rest d1 with
            | inl e => inl e
            | inr (l, d2) => inr (a :: l, d2)
            end
        end
    end.

(** ** The image store and the log *)

Inductive Event :=
| UploadImage (base64Image folder : string)
| EncodeImageToBlurhash (base64Image : string)
| GetColor (base64Image : string)
| DeleteFile (path : string)
| BulkDeleteFiles (paths : list string)
| ConsoleError (message : string).

(** Modelled from the spec: the image store is an external collaborator
    (upload gives a path, deleteFile and bulkDeleteFiles may throw) and
    [src/server/imageUtil] is not part of the sources.  Its behaviour is a
    parameter: [None] and [false] are rejections. *)
Record ImageStore := mkImageStore
  { upload_filePath : string -> string -> option string;
    blurhash_of : string -> option string;
    color_of : string -> option string;
    deleteFile_ok : string -> bool;
    bulkDeleteFiles_ok : list string -> bool }.

Record World := mkWorld
  { db : Store;
    trace : list Event }.

(** ** Procedures *)

Definition M (A : Type) : Type := World -> Result A * World.

Definition ret {A} (a : A) : M A := fun w => (inr a, w).

Definition bind {A B} (m : M A) (k : A -> M B) : M B :=
  fun w =>
    match m w with
    | (inl e, w') => (inl e, w')
    | (inr a, w') => k a w'
    end.

Declare Scope proc_scope.
Delimit Scope proc_scope with proc.
Notation "x <- m ;; k" := (bind m (fun x => k))
  (at level 61, m at next level, right associativity) : proc_scope.
Notation "m ;;; k" := (bind m (fun _ => k))
  (at level 61, right associativity) : proc_scope.
Local Open Scope proc_scope.

Definition emit (e : Event) : M unit :=
  fun w => (inr tt, {| db := db w; trace := trace w ++ [e] |}).

Definition reject {A} : M A := fun w => (inl ExternalServiceError, w).

(** [await] of a store query: an error leaves the store as it was. *)
Definition await_db {A} (op : DbOp A) : M A :=
  fun w =>
    match op (db w) with
    | inl e => (inl e, w)
    | inr (a, d') => (inr a, {| db := d'; trace := trace w |})
    end.

(** [try { m } catch (error) { h }] *)
Definition try_catch {A} (m : M A) (h : M A) : M A :=
  fun w =>
    match m w with
    | (inl _, w') => h w'
    | r => r
    end.

(** [Promise.all([a, b])]: both are started; it rejects when one does. *)
Definition promise_all2 {A B} (a : M A) (b : M B) : M (A * B) :=
  fun w =>
    let (ra, w1) := a w in
    let (rb, w2) := b w1 in
    match ra, rb with
    | inr x, inr y => (inr (x, y), w2)
    | inl e, _ => (inl e, w2)
    | _, inl e => (inl e, w2)
    end.

(** A promise that is started and never awaited: its outcome is not seen. *)
Definition not_awaited {A} (m : M A) : M unit :=
  fun w => (inr tt, snd (m w)).

Definition console_error (message : string) : M unit :=
  emit (ConsoleError message).

Section ImageCalls.
Variable imageStore : ImageStore.

Definition uploadImage (base64Image folder : string) : M string :=
  emit (UploadImage base64Image folder) ;;;
  match upload_filePath imageStore base64Image folder with
  | Some filePath => ret filePath
  | None => reject
  end.

Definition encodeImageToBlurhash (base64Image : string) : M string :=
  emit (EncodeImageToBlurhash base64Image) ;;;
  match blurhash_of imageStore base64Image with
  | Some h => ret h
  | None => reject
  end.

Definition getColor (base64Image : string) : M string :=
  emit (GetColor base64Image) ;;;
  match color_of imageStore base64Image with
  | Some c => ret c
  | None => reject
  end.

Definition imageKit_deleteFile (path : string) : M unit :=
  emit (DeleteFile path) ;;;
  if deleteFile_ok imageStore path then ret tt else reject.

Definition imageKit_bulkDeleteFiles (paths : list string) : M unit :=
  emit (BulkDeleteFiles paths) ;;;
  if bulkDeleteFiles_ok imageStore paths then ret tt else reject.
End ImageCalls.

Definition promise_all3 {A B C} (a : M A) (b : M B) (c : M C) : M (A * B * C) :=
  promise_all2 (promise_all2 a b) c.

(** A query that only reads. *)
Definition reading {A} (f : Store -> A) : DbOp A := fun d => inr (f d, d).

(** The string held by an optional value that passed a truthiness test. *)
Definition the (x : option string) : string :=
  match x with
  | Some s => s
  | None => ""
  end.

(** ** [categoryRouter] *)

(** Modelled from the spec: [categoryInput] of [src/utils/validators], which
    is not part of the sources, with the two fields the router reads. *)
Record categoryInput := mkCategoryInput
  { name : string;
    imageBase64 : option string }.

Record positionInput := mkPositionInput
  { id : string;
    newPosition : Z }.

(** The [data] argument of the two [category.update] calls. *)
Record updateData := mkUpdateData
  { upd_name : string;
    upd_imageUrl : option string }.

Definition with_imageUrl (imageUrl : string) (c : Category.t) : Category.t :=
  {| Category.id := Category.id c;
     Category.menuId := Category.menuId c;
     Category.userId := Category.userId c;
     Category.name := Category.name c;
     Category.position := Category.position c;
     Category.imageUrl := Some imageUrl |}.

(** [data: updateData]: a field left [undefined] is not written. *)
Definition apply_updateData (u : updateData) (c : Category.t) : Category.t :=
  {| Category.id := Category.id c;
     Category.menuId := Category.menuId c;
     Category.userId := Category.userId c;
     Category.name := upd_name u;
     Category.position := Category.position c;
     Category.imageUrl :=
       match upd_imageUrl u with
       | Some url => Some url
       | None => Category.imageUrl c
       end |}.

(** [data: { position: item.newPosition }] *)
Definition apply_position (newPosition : Z) (c : Category.t) : Category.t :=
  {| Category.id := Category.id c;
     Category.menuId := Category.menuId c;
     Category.userId := Category.userId c;
     Category.name := Category.name c;
     Category.position := newPosition;
     Category.imageUrl := Category.imageUrl c |}.

(** [`user/${ctx.session.user.id}/category`] *)
Definition category_folder (session_user_id : string) : string :=
  "user/" ++ session_user_id ++ "/category".

(** [imagePaths]: the [imageId] of every item that has one. *)
Definition imagePaths_of (items : list MenuItem.t) : list string :=
  flat_map (fun item =>
              if truthy (MenuItem.imageId item)
              then [the (MenuItem.imageId item)]
              else [])
           items.

Definition nonempty {A} (l : list A) : bool :=
  match l with
  | [] => false
  | _ :: _ => true
  end.

(** The list [transactions] that [delete] hands to [$transaction]. *)
Definition delete_transactions (id session_user_id : string) (imagePaths : list string)
  : list (DbOp unit) :=
  [unknown (menuItem_deleteMany id);
   unknown (category_delete id session_user_id)]
  ++ (if nonempty imagePaths then [unknown (image_deleteMany imagePaths)] else []).

Module categoryRouter.
Section Procedures.
Variable imageStore : ImageStore.
(** [ctx.session.user.id] *)
Variable session_user_id : string.

(** [cuid] is the identifier the store generates for the new row. *)
Definition create (menuId : string) (input : categoryInput) (cuid : string)
  : M CategoryWithItems :=
  counted <- await_db (reading (fun d =>
               (category_count menuId d,
                category_findFirst_desc menuId session_user_id d))) ;;
  let lastCategoryItem := snd counted in
  let createData :=
    {| Category.id := cuid;
       Category.menuId := menuId;
       Category.userId := session_user_id;
       Category.name := name input;
       Category.position :=
         match lastCategoryItem with
         | Some last => (Category.position last + 1)%Z
         | None => 0%Z
         end;
       Category.imageUrl := None |} in
  createData <-
    (if truthy (imageBase64 input)
     then
       uploaded <- promise_all3
                     (uploadImage imageStore (the (imageBase64 input))
                                  (category_folder session_user_id))
                     (encodeImageToBlurhash imageStore (the (imageBase64 input)))
                     (getColor imageStore (the (imageBase64 input))) ;;
       ret (with_imageUrl (fst (fst uploaded)) createData)
     else ret createData) ;;
  await_db (category_create createData).

Definition delete (id : string) : M (Category.t * list MenuItem.t) :=
  currentItem <- await_db (fun d =>
                   match category_findUniqueOrThrow id session_user_id d with
                   | inl e => inl e
                   | inr (c, d') => inr ((c, items_of d' (Category.id c)), d')
                   end) ;;
  let imagePaths := imagePaths_of (snd currentItem) in
  (if truthy (Category.imageUrl (fst currentItem))
   then try_catch
          (imageKit_deleteFile imageStore (the (Category.imageUrl (fst currentItem))))
          (console_error "Failed to delete category image:")
   else ret tt) ;;;
  (if nonempty imagePaths
   then not_awaited (imageKit_bulkDeleteFiles imageStore imagePaths)
   else ret tt) ;;;
  await_db (transaction (delete_transactions id session_user_id imagePaths)) ;;;
  ret currentItem.

Definition getAll (menuId : string) : M (list CategoryWithItems) :=
  await_db (reading (category_findMany menuId session_user_id)).

Definition update (id : string) (input : categoryInput) : M Category.t :=
  currentItem <- await_db (category_findUniqueOrThrow id session_user_id) ;;
  let updateData := {| upd_name := name input; upd_imageUrl := None |} in
  updateData <-
    (if truthy (imageBase64 input)
     then
       (if truthy (Category.imageUrl currentItem)
        then try_catch
               (imageKit_deleteFile imageStore (the (Category.imageUrl currentItem)))
               (console_error "Failed to delete old category image:")
        else ret tt) ;;;
       uploadedResponse <- uploadImage imageStore (the (imageBase64 input))
                                       (category_folder session_user_id) ;;
       ret {| upd_name := upd_name updateData;
              upd_imageUrl := Some uploadedResponse |}
     else ret updateData) ;;
  await_db (category_update id session_user_id (apply_updateData updateData)).

Definition updatePosition (input : list positionInput) : M (list CategoryWithItems) :=
  await_db (transaction
              (map (fun item =>
                      including (category_update (id item) session_user_id
                                                 (apply_position (newPosition item))))
                   input)).
End Procedures.
End categoryRouter.

(** ** The bypass credential strategy *)

Module User.
Record t := mk
  { email : string;
    id : string;
    image : string;
    name : string }.
End User.

Record Credentials := mkCredentials { loginKey : string }.

(** [credentials?.loginKey] *)
Definition loginKey_of (credentials : option Credentials) : option string :=
  match credentials with
  | Some c => Some (loginKey c)
  | None => None
  end.

(** [TEST_MENUFIC_USER_LOGIN_KEY] is [process.env.TEST_MENUFIC_USER_LOGIN_KEY]. *)
Definition authorize (TEST_MENUFIC_USER_LOGIN_KEY : option string)
                     (credentials : option Credentials) : option User.t :=
  if truthy TEST_MENUFIC_USER_LOGIN_KEY
     && strict_eq (loginKey_of credentials) TEST_MENUFIC_USER_LOGIN_KEY
  then Some {| User.email := "testUser@gmail.com";
               User.id := "testUser";
               User.image := "";
               User.name := "Test User" |}
  else None.

(** ** The base URL of the auth handler *)

(** [a || b] on optional strings. *)
Definition js_or (a b : option string) : option string :=
  if truthy a then a else b.

(** The two variables of [process.env] that [getBaseUrl] and [handler] use. *)
Record ProcessEnv := mkProcessEnv
  { NEXTAUTH_URL : option string;
    URL : option string }.

(** The request headers [getBaseUrl] reads; a header that was not sent is
    [None]. *)
Record Headers := mkHeaders
  { x_forwarded_host : option string;
    host : option string;
    x_forwarded_proto : option string }.

Record NextApiRequest := mkNextApiRequest { headers : Headers }.

(** [`${protocol}://${host}`] *)
Definition origin (protocol host : string) : string :=
  protocol ++ "://" ++ host.

(** The URL built from the request headers, when the request names a host. *)
Definition url_of_headers (req : option NextApiRequest) : option string :=
  match req with
  | Some r =>
      let host := js_or (x_forwarded_host (headers r)) (host (headers r)) in
      let protocol := js_or (x_forwarded_proto (headers r)) (Some "https") in
      if truthy host then Some (origin (the protocol) (the host)) else None
  | None => None
  end.

Definition getBaseUrl (env : ProcessEnv) (req : option NextApiRequest) : option string :=
  if truthy (NEXTAUTH_URL env) then NEXTAUTH_URL env
  else
    match url_of_headers req with
    | Some url => Some url
    | None => if truthy (URL env) then URL env else None
    end.

(** What [handler] does to [process.env] before it hands the request to
    NextAuth. *)
Definition handler (env : ProcessEnv) (req : NextApiRequest) : ProcessEnv :=
  let baseUrl := getBaseUrl env (Some req) in
  if truthy baseUrl && negb (truthy (NEXTAUTH_URL env))
  then {| NEXTAUTH_URL := baseUrl; URL := URL env |}
  else env.

(** ** The session callback *)

Module SessionUser.
Record t := mk
  { id : option string;
    name : option string;
    email : option string;
    image : option string }.
End SessionUser.

Record Session := mkSession
  { user : option SessionUser.t;
    expires : string }.

Record JWT := mkJWT { sub : option string }.

(** [callbacks.session({ session, token })] *)
Definition session (s : Session) (token : JWT) : Session :=
  match user s with
  | Some u =>
      if truthy (sub token)
      then {| user := Some {| SessionUser.id := sub token;
                              SessionUser.name := SessionUser.name u;
                              SessionUser.email := SessionUser.email u;
                              SessionUser.image := SessionUser.image u |};
              expires := expires s |}
      else s
  | None => s
  end.

(** * Vocabulary of the properties *)

(** The identifiers of a [getAll] answer, in answer order. *)
Definition ids_of (l : list CategoryWithItems) : list string :=
  map (fun x => Category.id (category x)) l.

Definition positions_of (l : list CategoryWithItems) : list Z :=
  map (fun x => Category.position (category x)) l.

(** Two rows in ascending order of a key. *)
Definition ascending {A} (key : A -> Z) (a b : A) : Prop := (key a <= key b)%Z.


(** The caller's categories of a menu, in storage order. *)
Definition own_categories (menuId userId : string) (d : Store) : list Category.t :=
  filter (in_menu_of menuId userId) (categories d).

(** Categories created one after the other in one menu by one caller. *)
Fixpoint create_in_sequence (imageStore : ImageStore) (session_user_id menuId : string)
         (inputs : list (categoryInput * string)) : M (list CategoryWithItems) :=
  match inputs with
  | [] => ret []
  | (input, cuid) :: rest =>
      (c <- categoryRouter.create imageStore session_user_id menuId input cuid ;;
       cs <- create_in_sequence imageStore session_user_id menuId rest ;;
       ret (c :: cs))%proc
  end.

(** The position [create] is about to hand out. *)
Definition next_position (menuId userId : string) (d : Store) : Z :=
  match category_findFirst_desc menuId userId d with
  | Some last => (Category.position last + 1)%Z
  | None => 0%Z
  end.

(** The row [create] builds before the image is looked at. *)
Definition createData_of (session_user_id menuId : string) (input : categoryInput)
           (cuid : string) (d : Store) : Category.t :=
  {| Category.id := cuid;
     Category.menuId := menuId;
     Category.userId := session_user_id;
     Category.name := name input;
     Category.position := next_position menuId session_user_id d;
     Category.imageUrl := None |}.

(** The trace [update] leaves when it replaces the image of a category that
    has one. *)
Definition replacement_trace (imageStore : ImageStore) (uid : string)
           (input : categoryInput) (url : string) : list Event :=
  [DeleteFile url]
  ++ (if deleteFile_ok imageStore url
      then []
      else [ConsoleError "Failed to delete old category image:"])
  ++ [UploadImage (the (imageBase64 input)) (category_folder uid)].

(** The queries [updatePosition] puts in its transaction. *)
Definition position_updates (uid : string) (input : list positionInput)
  : list (DbOp CategoryWithItems) :=
  map (fun item =>
         including (category_update (id item) uid (apply_position (newPosition item))))
      input.

Definition reposition_one (uid : string) (item : positionInput) (x : Category.t)
  : Category.t :=
  if is_id_userId (id item) uid x then apply_position (newPosition item) x else x.

(** What a successful [updatePosition] leaves in the category table. *)
Definition repositioned (userId : string) (input : list positionInput)
           (cs : list Category.t) : list Category.t :=
  fold_left (fun acc item => map (reposition_one userId item) acc) input cs.

Definition testUser : User.t :=
  {| User.email := "testUser@gmail.com";
     User.id := "testUser";
     User.image := "";
     User.name := "Test User" |}.

(** The configured secret counts as set when [process.env] holds a
    non-empty string for it. *)
Definition secret_set (TEST_MENUFIC_USER_LOGIN_KEY : option string) : Prop :=
  exists s, TEST_MENUFIC_USER_LOGIN_KEY = Some s /\ s <> "".

(** ** Sample data *)

(** An image store on which every call resolves. *)
Definition resolving : ImageStore :=
  {| upload_filePath := fun _ folder => Some (folder ++ "/new.png");
     blurhash_of := fun _ => Some "LEHV6nWB2yk8";
     color_of := fun _ => Some "#a0b1c2";
     deleteFile_ok := fun _ => true;
     bulkDeleteFiles_ok := fun _ => true |}.

(** An image store on which every call rejects. *)
Definition rejecting : ImageStore :=
  {| upload_filePath := fun _ _ => None;
     blurhash_of := fun _ => None;
     color_of := fun _ => None;
     deleteFile_ok := fun _ => false;
     bulkDeleteFiles_ok := fun _ => false |}.

(** An image store that uploads but cannot delete. *)
Definition cannot_delete : ImageStore :=
  {| upload_filePath := fun _ folder => Some (folder ++ "/new.png");
     blurhash_of := fun _ => Some "LEHV6nWB2yk8";
     color_of := fun _ => Some "#a0b1c2";
     deleteFile_ok := fun _ => false;
     bulkDeleteFiles_ok := fun _ => false |}.

Definition empty_world : World :=
  {| db := {| categories := []; menuItems := []; images := []; menus := [] |};
     trace := [] |}.

Definition starters : Category.t :=
  {| Category.id := "A"; Category.menuId := "m1"; Category.userId := "alice";
     Category.name := "Starters"; Category.position := 0%Z;
     Category.imageUrl := Some "user/alice/category/old.png" |}.

Definition mains : Category.t :=
  {| Category.id := "B"; Category.menuId := "m1"; Category.userId := "alice";
     Category.name := "Mains"; Category.position := 1%Z;
     Category.imageUrl := None |}.

Definition soup : MenuItem.t :=
  {| MenuItem.id := "i1"; MenuItem.categoryId := "A";
     MenuItem.position := 0%Z; MenuItem.imageId := Some "img1" |}.

Definition salad : MenuItem.t :=
  {| MenuItem.id := "i2"; MenuItem.categoryId := "A";
     MenuItem.position := 1%Z; MenuItem.imageId := None |}.

(** Alice's menu "m1" with two categories, the first with two items. *)
Definition alice_world : World :=
  {| db := {| categories := [starters; mains];
              menuItems := [soup; salad];
              images := [{| Image.id := "img1" |}];
              menus := [{| Menu.id := "m1"; Menu.userId := "alice" |}] |};
     trace := [] |}.

Definition no_image (n : string) : categoryInput :=
  {| name := n; imageBase64 := None |}.

Definition with_image (n img : string) : categoryInput :=
  {| name := n; imageBase64 := Some img |}.

(** The store [delete] leaves behind. *)
Definition after_delete (id session_user_id : string) (imagePaths : list string)
           (d : Store) : Store :=
  {| categories := filter (fun x => negb (is_id_userId id session_user_id x)) (categories d);
     menuItems := filter (fun i => negb (MenuItem.categoryId i =? id)) (menuItems d);
     images := if nonempty imagePaths
               then filter (fun im => negb (mem_string (Image.id im) imagePaths)) (images d)
               else images d;
     menus := menus d |}.

(** The events of a [delete] of a category. *)
Definition delete_trace (imageStore : ImageStore) (c : Category.t)
           (imagePaths : list string) : list Event :=
  (if truthy (Category.imageUrl c)
   then DeleteFile (the (Category.imageUrl c))
        :: (if deleteFile_ok imageStore (the (Category.imageUrl c))
            then []
            else [ConsoleError "Failed to delete category image:"])
   else [])
  ++ (if nonempty imagePaths then [BulkDeleteFiles imagePaths] else []).

Definition specials : Category.t :=
  {| Category.id := "S"; Category.menuId := "m9"; Category.userId := "bob";
     Category.name := "Specials"; Category.position := 0%Z;
     Category.imageUrl := None |}.

(** Bob's menu "m9" with one category. *)
Definition bob_world : World :=
  {| db := {| categories := [specials];
              menuItems := [];
              images := [];
              menus := [{| Menu.id := "m9"; Menu.userId := "bob" |}] |};
     trace := [] |}.

(** Bob's menu "m9" before anything is created in it. *)
Definition bob_menu_world : World :=
  {| db := {| categories := [];
              menuItems := [];
              images := [];
              menus := [{| Menu.id := "m9"; Menu.userId := "bob" |}] |};
     trace := [] |}.

(** ** Sample requests *)

(** A request that came through a proxy. *)
Definition proxied_request : NextApiRequest :=
  {| headers := {| x_forwarded_host := Some "menu.example.com";
                   host := Some "10.0.0.7:3000";
                   x_forwarded_proto := None |} |}.

Definition direct_request : NextApiRequest :=
  {| headers := {| x_forwarded_host := None;
                   host := Some "localhost:3000";
                   x_forwarded_proto := Some "http" |} |}.

(** A process that was started without [NEXTAUTH_URL]. *)
Definition netlify_env : ProcessEnv :=
  {| NEXTAUTH_URL := None; URL := Some "https://amourqr.netlify.app" |}.

(** ** Vocabulary of the further properties *)

(** The position the last entry of the input that names [i] asks for. *)
Fixpoint last_position (i : string) (input : list positionInput) : option Z :=
  match input with
  | [] => None
  | item :: rest =>
      match last_position i rest with
      | Some p => Some p
      | None => if id item =? i then Some (newPosition item) else None
      end
  end.

(** A row after the caller's reassignments. *)
Definition final_row (uid : string) (input : list positionInput) (x : Category.t)
  : Category.t :=
  if Category.userId x =? uid
  then match last_position (Category.id x) input with
       | Some p => apply_position p x
       | None => x
       end
  else x.

(** * Properties *)

Local Open Scope list_scope.

(** ** Strings and truthiness *)

Lemma truthy_Some (x : option string) :
  truthy x = true <-> exists s, x = Some s /\ s <> "".
Proof.
  destruct x as [s|]; simpl.
  - rewrite negb_true_iff. split.
    + intros H. exists s. split; [reflexivity|].
      intros ->. discriminate.
    + intros (s' & [= <-] & Hs). now apply String.eqb_neq.
  - split; [discriminate | intros (s & [=] & _)].
Qed.

Lemma truthy_the (x : option string) : truthy x = true -> x = Some (the x).
Proof. destruct x; simpl; [reflexivity | discriminate]. Qed.

Lemma strict_eq_true (a b : option string) : strict_eq a b = true <-> a = b.
Proof.
  destruct a as [x|], b as [y|]; simpl; try (split; congruence).
  rewrite String.eqb_eq. split; congruence.
Qed.

(** ** Rows and keys *)

Lemma is_id_userId_true (i u : string) (c : Category.t) :
  is_id_userId i u c = true <-> Category.id c = i /\ Category.userId c = u.
Proof.
  unfold is_id_userId. now rewrite andb_true_iff, !String.eqb_eq.
Qed.

Lemma in_menu_of_true (m u : string) (c : Category.t) :
  in_menu_of m u c = true <-> Category.menuId c = m /\ Category.userId c = u.
Proof.
  unfold in_menu_of. now rewrite andb_true_iff, !String.eqb_eq.
Qed.

Lemma find_id_userId_Some (i u : string) (l : list Category.t) (c : Category.t) :
  find (is_id_userId i u) l = Some c ->
  In c l /\ Category.id c = i /\ Category.userId c = u.
Proof.
  intros H. apply find_some in H. destruct H as [Hin H].
  apply is_id_userId_true in H. tauto.
Qed.

Lemma find_id_userId_None (i u : string) (l : list Category.t) :
  find (is_id_userId i u) l = None <->
  forall x, In x l -> ~ (Category.id x = i /\ Category.userId x = u).
Proof.
  split.
  - intros H x Hx Hk. apply is_id_userId_true in Hk.
    pose proof (find_none _ _ H x Hx). congruence.
  - intros H. destruct (find (is_id_userId i u) l) as [c|] eqn:E; [|reflexivity].
    apply find_id_userId_Some in E. destruct E as (Hin & Hi & Hu).
    exfalso. now apply (H c Hin).
Qed.

(** Under the primary key, an identifier names one row. *)
Lemma primary_key_unique (l : list Category.t) (c x : Category.t) :
  NoDup (map Category.id l) -> In c l -> In x l ->
  Category.id x = Category.id c -> x = c.
Proof.
  induction l as [|y l IH]; simpl; [tauto|].
  intros Hnd Hc Hx Hid. inversion Hnd as [|? ? Hny Hnd']; subst.
  destruct Hc as [->|Hc], Hx as [->|Hx]; auto.
  - exfalso. apply Hny. rewrite <- Hid. now apply in_map.
  - exfalso. apply Hny. rewrite Hid. now apply in_map.
Qed.

(** Closed lists of identifiers without a repetition. *)
Ltac distinct_keys :=
  repeat (apply NoDup_cons; [simpl; intuition discriminate|]); apply NoDup_nil.


(** ** Ordering *)

Section Ordering.
Context {A : Type} (key : A -> Z).

Lemma insert_by_perm (x : A) (l : list A) :
  Permutation (insert_by key x l) (x :: l).
Proof.
  induction l as [|y l IH]; simpl; [reflexivity|].
  destruct (key x <=? key y)%Z; [reflexivity|].
  rewrite IH. apply perm_swap.
Qed.

Lemma orderBy_asc_perm (l : list A) : Permutation (orderBy_asc key l) l.
Proof.
  induction l as [|x l IH]; simpl; [reflexivity|].
  unfold orderBy_asc in *. simpl. rewrite insert_by_perm. now constructor.
Qed.

Lemma insert_by_sorted (x : A) (l : list A) :
  StronglySorted (ascending key) l -> StronglySorted (ascending key) (insert_by key x l).
Proof.
  induction 1 as [|y l Hs IH Hall]; simpl.
  - repeat constructor.
  - destruct (Z.leb_spec (key x) (key y)) as [Hle|Hlt].
    + constructor; [now constructor|].
      constructor; [exact Hle|].
      eapply Forall_impl; [|exact Hall].
      unfold ascending. intros; lia.
    + constructor; [exact IH|].
      rewrite Forall_forall. intros z Hz.
      apply (Permutation_in _ (insert_by_perm x l)) in Hz.
      destruct Hz as [<-|Hz].
      * unfold ascending; lia.
      * rewrite Forall_forall in Hall. now apply Hall.
Qed.

Lemma orderBy_asc_sorted (l : list A) : StronglySorted (ascending key) (orderBy_asc key l).
Proof.
  induction l as [|x l IH]; simpl; [constructor|].
  now apply insert_by_sorted.
Qed.

Lemma orderBy_asc_In (x : A) (l : list A) : In x (orderBy_asc key l) <-> In x l.
Proof.
  split; apply Permutation_in;
    [apply orderBy_asc_perm | symmetry; apply orderBy_asc_perm].
Qed.

(** In an ascending list a smaller key comes first. *)
Lemma ascending_before (l : list A) (x y : A) :
  StronglySorted (ascending key) l -> In x l -> In y l -> (key y < key x)%Z ->
  exists l1 l2 l3, l = l1 ++ y :: l2 ++ x :: l3.
Proof.
  induction 1 as [|z l Hs IH Hall]; simpl; [tauto|].
  intros Hx Hy Hlt. rewrite Forall_forall in Hall.
  destruct Hy as [->|Hy].
  - destruct Hx as [->|Hx]; [lia|].
    apply in_split in Hx. destruct Hx as (l2 & l3 & ->).
    now exists [], l2, l3.
  - destruct Hx as [->|Hx].
    + specialize (Hall y Hy). unfold ascending in Hall. lia.
    + destruct (IH Hx Hy Hlt) as (l1 & l2 & l3 & ->).
      now exists (z :: l1), l2, l3.
Qed.
End Ordering.

(** ** Running the procedures *)

Ltac unfold_proc :=
  unfold categoryRouter.create, categoryRouter.update, categoryRouter.delete,
    categoryRouter.getAll, categoryRouter.updatePosition,
    promise_all3, promise_all2, not_awaited, try_catch, console_error,
    uploadImage, encodeImageToBlurhash, getColor,
    imageKit_deleteFile, imageKit_bulkDeleteFiles,
    bind, ret, reject, emit, await_db, reading.

Lemma fresh_id (cuid : string) (l : list Category.t) :
  existsb (fun c => Category.id c =? cuid) l = false <->
  ~ In cuid (map Category.id l).
Proof.
  induction l as [|c l IH]; simpl; [tauto|].
  rewrite orb_false_iff, IH, String.eqb_neq. tauto.
Qed.

Lemma create_without_payload imageStore uid menuId input cuid w :
  truthy (imageBase64 input) = false ->
  categoryRouter.create imageStore uid menuId input cuid w
  = await_db (category_create (createData_of uid menuId input cuid (db w))) w.
Proof.
  intros H. destruct w as [d t]. unfold_proc. simpl. rewrite H. reflexivity.
Qed.

(** Every successful [create] appends one row to the category table. *)
Lemma create_inv imageStore uid menuId input cuid w r w' :
  categoryRouter.create imageStore uid menuId input cuid w = (inr r, w') ->
  exists url,
    category r =
      {| Category.id := cuid;
         Category.menuId := menuId;
         Category.userId := uid;
         Category.name := name input;
         Category.position := next_position menuId uid (db w);
         Category.imageUrl := url |}
    /\ categories (db w') = categories (db w) ++ [category r]
    /\ menuItems (db w') = menuItems (db w)
    /\ images (db w') = images (db w)
    /\ menus (db w') = menus (db w)
    /\ ~ In cuid (map Category.id (categories (db w)))
    /\ (truthy (imageBase64 input) = false -> url = None /\ trace w' = trace w)
    /\ (truthy (imageBase64 input) = true ->
        url = upload_filePath imageStore (the (imageBase64 input)) (category_folder uid)).
Proof.
  destruct w as [d t]. unfold_proc. simpl. unfold next_position.
  destruct (truthy (imageBase64 input)) eqn:Ht; simpl.
  - destruct (upload_filePath imageStore _ _) as [p|] eqn:Eu;
      destruct (blurhash_of imageStore _) as [h|];
      destruct (color_of imageStore _) as [k|]; simpl; try discriminate.
    unfold category_create. simpl.
    destruct (existsb _ _) eqn:Ex; [discriminate|].
    intros [= <- <-]. simpl. exists (Some p).
    apply fresh_id in Ex. repeat split; try assumption; try discriminate.
  - unfold category_create. simpl.
    destruct (existsb _ _) eqn:Ex; [discriminate|].
    intros [= <- <-]. simpl. exists None.
    apply fresh_id in Ex. repeat split; try assumption; try discriminate.
Qed.

(** Without a payload and with a new identifier [create] succeeds. *)
Lemma create_succeeds imageStore uid menuId input cuid w :
  truthy (imageBase64 input) = false ->
  ~ In cuid (map Category.id (categories (db w))) ->
  exists r w', categoryRouter.create imageStore uid menuId input cuid w = (inr r, w').
Proof.
  intros Ht Hfresh. rewrite create_without_payload by exact Ht.
  unfold await_db, category_create. simpl.
  apply fresh_id in Hfresh. rewrite Hfresh. eauto.
Qed.

(** C8. A [create] whose input has no imageBase64 invokes no image-store
    operation (upload, hash or colour extraction): it adds nothing to the
    trace, whatever its outcome; the category it creates has no imageUrl;
    and it does create one when the generated identifier is new. *)
Theorem create_without_image imageStore uid menuId input cuid w :
  truthy (imageBase64 input) = false ->
  trace (snd (categoryRouter.create imageStore uid menuId input cuid w)) = trace w
  /\ (forall r w',
         categoryRouter.create imageStore uid menuId input cuid w = (inr r, w') ->
         Category.imageUrl (category r) = None
         /\ In (category r) (categories (db w')))
  /\ (~ In cuid (map Category.id (categories (db w))) ->
      exists r w',
        categoryRouter.create imageStore uid menuId input cuid w = (inr r, w')).
Proof.
  intros Ht. split; [|split].
  - rewrite create_without_payload by exact Ht.
    unfold await_db. destruct (category_create _ _) as [e|[r d']]; reflexivity.
  - intros r w' H. apply create_inv in H.
    destruct H as (url & Hr & Hc & _ & _ & _ & _ & Hn & _).
    destruct (Hn Ht) as [-> _]. split.
    + now rewrite Hr.
    + rewrite Hc. apply in_or_app. right. now left.
  - now apply create_succeeds.
Qed.

Lemma create_without_image_witness :
  trace (snd (categoryRouter.create rejecting "alice" "m1" (no_image "Desserts") "C"
                alice_world)) = []
  /\ exists r w',
      categoryRouter.create rejecting "alice" "m1" (no_image "Desserts") "C" alice_world
      = (inr r, w')
      /\ Category.imageUrl (category r) = None.
Proof.
  pose proof (create_without_image rejecting "alice" "m1" (no_image "Desserts") "C"
                alice_world eq_refl) as (Ht & Hr & Hs).
  split; [exact Ht|].
  destruct Hs as (r & w' & E).
  - simpl. intros [H|[H|[]]]; discriminate H.
  - exists r, w'. split; [exact E|]. exact (proj1 (Hr r w' E)).
Defined.

(** ** [update] *)

Lemma update_not_found imageStore uid i input w :
  find (is_id_userId i uid) (categories (db w)) = None ->
  categoryRouter.update imageStore uid i input w = (inl RecordNotFound, w).
Proof.
  intros H. destruct w as [d t]. unfold_proc. simpl in *.
  unfold category_findUniqueOrThrow. now rewrite H.
Qed.

(** What [update] writes. *)
Lemma update_inv imageStore uid i input w c' w' :
  categoryRouter.update imageStore uid i input w = (inr c', w') ->
  exists c u,
    find (is_id_userId i uid) (categories (db w)) = Some c
    /\ c' = apply_updateData u c
    /\ upd_name u = name input
    /\ (truthy (imageBase64 input) = false ->
        upd_imageUrl u = None /\ trace w' = trace w)
    /\ (truthy (imageBase64 input) = true ->
        upd_imageUrl u <> None
        /\ upd_imageUrl u
           = upload_filePath imageStore (the (imageBase64 input)) (category_folder uid))
    /\ db w' =
         {| categories :=
              map (fun x => if is_id_userId i uid x then apply_updateData u x else x)
                  (categories (db w));
            menuItems := menuItems (db w);
            images := images (db w);
            menus := menus (db w) |}.
Proof.
  destruct w as [d t]. unfold_proc. simpl.
  unfold category_findUniqueOrThrow, category_update.
  destruct (find (is_id_userId i uid) (categories d)) as [c|] eqn:Ef; simpl;
    [|discriminate].
  destruct (truthy (imageBase64 input)) eqn:Ht; simpl.
  - destruct (truthy (Category.imageUrl c)); simpl;
      [destruct (deleteFile_ok imageStore _); simpl|];
      (destruct (upload_filePath imageStore _ _) as [p|] eqn:Eu; simpl;
       [|discriminate]);
      rewrite Ef; intros [= <- <-]; simpl;
      exists c, {| upd_name := name input; upd_imageUrl := Some p |};
      repeat split; try reflexivity; try discriminate.
  - rewrite Ef. intros [= <- <-]. simpl.
    exists c, {| upd_name := name input; upd_imageUrl := None |}.
    repeat split; try reflexivity; try discriminate.
Qed.

(** The events of an [update] that replaces the image of an owned category
    which has one, whatever the image store answers. *)
Lemma update_trace imageStore uid i input w c url :
  find (is_id_userId i uid) (categories (db w)) = Some c ->
  truthy (imageBase64 input) = true ->
  Category.imageUrl c = Some url -> url <> "" ->
  trace (snd (categoryRouter.update imageStore uid i input w))
  = trace w ++ replacement_trace imageStore uid input url.
Proof.
  intros Hf Ht Hu Hne. destruct w as [d t]. unfold_proc. simpl in *.
  unfold category_findUniqueOrThrow, category_update, replacement_trace.
  rewrite Hf. simpl. rewrite Ht, Hu. simpl.
  apply String.eqb_neq in Hne. rewrite Hne. simpl.
  destruct (deleteFile_ok imageStore url); simpl;
    destruct (upload_filePath imageStore _ _); simpl; rewrite ?Hf; simpl;
    rewrite <- ?app_assoc; reflexivity.
Qed.

(** The row addressed by a key is still addressed by it after the update. *)
Lemma find_after_update (i uid : string) (f : Category.t -> Category.t)
      (l : list Category.t) (c : Category.t) :
  (forall x, Category.id (f x) = Category.id x
             /\ Category.userId (f x) = Category.userId x) ->
  find (is_id_userId i uid) l = Some c ->
  find (is_id_userId i uid)
       (map (fun x => if is_id_userId i uid x then f x else x) l) = Some (f c).
Proof.
  intros Hf. induction l as [|y l IH]; simpl; [discriminate|].
  destruct (is_id_userId i uid y) eqn:Ey.
  - intros [= ->]. simpl.
    assert (is_id_userId i uid (f c) = true) as ->; [|reflexivity].
    apply is_id_userId_true in Ey. apply is_id_userId_true.
    destruct (Hf c) as [-> ->]. exact Ey.
  - intros H. simpl. rewrite Ey. now apply IH.
Qed.

(** An owned category, a payload and an upload that resolves: [update]
    completes, whatever the deletion of the old image did. *)
Lemma update_completes imageStore uid i input w c filePath :
  find (is_id_userId i uid) (categories (db w)) = Some c ->
  truthy (imageBase64 input) = true ->
  upload_filePath imageStore (the (imageBase64 input)) (category_folder uid)
  = Some filePath ->
  exists w',
    categoryRouter.update imageStore uid i input w
    = (inr (apply_updateData {| upd_name := name input;
                                upd_imageUrl := Some filePath |} c), w')
    /\ find (is_id_userId i uid) (categories (db w'))
       = Some (apply_updateData {| upd_name := name input;
                                   upd_imageUrl := Some filePath |} c).
Proof.
  intros Hf Ht Hup. destruct w as [d t]. unfold_proc. simpl in *.
  unfold category_findUniqueOrThrow, category_update.
  rewrite Hf. simpl. rewrite Ht. simpl.
  destruct (truthy (Category.imageUrl c)); simpl;
    [destruct (deleteFile_ok imageStore _); simpl|];
    rewrite Hup; simpl; rewrite Hf; eexists; (split; [reflexivity|]); simpl;
    now apply (find_after_update i uid (apply_updateData _)).
Qed.

(** C7. An [update] with a new image on an owned category that has an
    imageUrl calls the image store's deleteFile on that prior imageUrl
    before it uploads the replacement; when the deletion throws, the error is
    caught and only logged, and the update still completes with the new
    imageUrl. *)
Theorem update_deletes_prior_image imageStore uid i input w c url :
  find (is_id_userId i uid) (categories (db w)) = Some c ->
  truthy (imageBase64 input) = true ->
  Category.imageUrl c = Some url -> url <> "" ->
  trace (snd (categoryRouter.update imageStore uid i input w))
  = trace w ++ replacement_trace imageStore uid input url
  /\ (deleteFile_ok imageStore url = false ->
      replacement_trace imageStore uid input url
      = [DeleteFile url;
         ConsoleError "Failed to delete old category image:";
         UploadImage (the (imageBase64 input)) (category_folder uid)])
  /\ (forall filePath,
         upload_filePath imageStore (the (imageBase64 input)) (category_folder uid)
         = Some filePath ->
         exists c' w',
           categoryRouter.update imageStore uid i input w = (inr c', w')
           /\ Category.imageUrl c' = Some filePath
           /\ Category.name c' = name input
           /\ find (is_id_userId i uid) (categories (db w')) = Some c').
Proof.
  intros Hf Ht Hu Hne. split; [|split].
  - now apply (update_trace imageStore uid i input w c url).
  - intros Hd. unfold replacement_trace. now rewrite Hd.
  - intros filePath Hup.
    destruct (update_completes imageStore uid i input w c filePath Hf Ht Hup)
      as (w' & Hr & Hfind).
    eexists; exists w'. split; [exact Hr|]. split; [reflexivity|].
    split; [reflexivity | exact Hfind].
Qed.

Lemma update_deletes_prior_image_witness :
  trace (snd (categoryRouter.update cannot_delete "alice" "A"
                (with_image "Entrees" "iVBORw0KGgo=") alice_world))
  = [DeleteFile "user/alice/category/old.png";
     ConsoleError "Failed to delete old category image:";
     UploadImage "iVBORw0KGgo=" "user/alice/category"]
  /\ exists c' w',
      categoryRouter.update cannot_delete "alice" "A"
        (with_image "Entrees" "iVBORw0KGgo=") alice_world = (inr c', w')
      /\ Category.imageUrl c' = Some "user/alice/category/new.png".
Proof.
  assert (Hne : "user/alice/category/old.png" <> "") by discriminate.
  pose proof (update_deletes_prior_image cannot_delete "alice" "A"
                (with_image "Entrees" "iVBORw0KGgo=") alice_world starters
                "user/alice/category/old.png" eq_refl eq_refl eq_refl Hne)
    as (Ht & Hlog & Hdone).
  split.
  - rewrite Ht. rewrite (Hlog eq_refl). reflexivity.
  - destruct (Hdone "user/alice/category/new.png" eq_refl)
      as (c' & w' & E & Hurl & _ & _).
    exists c', w'. split; [exact E | exact Hurl].
Defined.

(** Rows keep their keys and their place under [apply_updateData]. *)
Lemma update_rows_frame (i uid : string) (u : updateData) (l : list Category.t) :
  Forall2 (fun x x' =>
             Category.id x' = Category.id x
             /\ Category.menuId x' = Category.menuId x
             /\ Category.userId x' = Category.userId x
             /\ Category.position x' = Category.position x
             /\ (is_id_userId i uid x = false -> x' = x))
          l
          (map (fun x => if is_id_userId i uid x then apply_updateData u x else x) l).
Proof.
  induction l as [|y l IH]; simpl; constructor; [|exact IH].
  destruct (is_id_userId i uid y); simpl; repeat split; congruence.
Qed.

(** C10. A successful [update] changes no field of the category other than
    name and imageUrl: id, menuId, userId and position are as before, in the
    row returned and in the row stored; imageUrl differs from before only
    when an imageBase64 payload was supplied; every other row and every other
    table is untouched. *)
Theorem update_frame imageStore uid i input w c' w' :
  categoryRouter.update imageStore uid i input w = (inr c', w') ->
  exists c,
    find (is_id_userId i uid) (categories (db w)) = Some c
    /\ find (is_id_userId i uid) (categories (db w')) = Some c'
    /\ Category.id c' = Category.id c
    /\ Category.menuId c' = Category.menuId c
    /\ Category.userId c' = Category.userId c
    /\ Category.position c' = Category.position c
    /\ Category.name c' = name input
    /\ (Category.imageUrl c' <> Category.imageUrl c ->
        truthy (imageBase64 input) = true)
    /\ Forall2 (fun x x' =>
                  Category.id x' = Category.id x
                  /\ Category.menuId x' = Category.menuId x
                  /\ Category.userId x' = Category.userId x
                  /\ Category.position x' = Category.position x
                  /\ (is_id_userId i uid x = false -> x' = x))
               (categories (db w)) (categories (db w'))
    /\ menuItems (db w') = menuItems (db w)
    /\ images (db w') = images (db w)
    /\ menus (db w') = menus (db w).
Proof.
  intros H. apply update_inv in H.
  destruct H as (c & u & Hf & -> & Hn & Hno & Hyes & Hdb).
  exists c. rewrite Hdb. simpl.
  split; [exact Hf|].
  split; [now apply (find_after_update i uid (apply_updateData u))|].
  do 4 (split; [reflexivity|]).
  split; [exact Hn|].
  split.
  - intros Hdiff. destruct (truthy (imageBase64 input)); [reflexivity|].
    exfalso. apply Hdiff. destruct (Hno eq_refl) as [Hu _]. now rewrite Hu.
  - split; [apply update_rows_frame | repeat split].
Qed.

Lemma update_frame_witness :
  exists c' w',
    categoryRouter.update resolving "alice" "B" (no_image "Main courses") alice_world
    = (inr c', w')
    /\ Category.position c' = 1%Z
    /\ Category.menuId c' = "m1"
    /\ Category.name c' = "Main courses"
    /\ Category.imageUrl c' = None.
Proof.
  destruct (categoryRouter.update resolving "alice" "B" (no_image "Main courses")
              alice_world) as [[e|c'] w'] eqn:E.
  - vm_compute in E. discriminate E.
  - exists c', w'. split; [reflexivity|].
    pose proof (update_frame resolving "alice" "B" (no_image "Main courses")
                  alice_world c' w' E)
      as (c & Hf & _ & _ & Hm & _ & Hp & Hn & Hi & _).
    vm_compute in Hf. injection Hf as <-.
    repeat split; try assumption.
    destruct (Category.imageUrl c') as [url|] eqn:Eu; [|reflexivity].
    assert (Hd : Some url <> Category.imageUrl mains) by discriminate.
    discriminate (Hi Hd).
Defined.

(** ** Uploads that fail *)

(** C5. When a [create] or an [update] carries an imageBase64 payload and the
    upload to the image store throws, nobody catches the error: the procedure
    ends with it and the relational store is as it was; no Category row has
    been created or modified. *)
Theorem failed_upload_aborts imageStore uid input w :
  truthy (imageBase64 input) = true ->
  upload_filePath imageStore (the (imageBase64 input)) (category_folder uid) = None ->
  (forall menuId cuid,
      exists w',
        categoryRouter.create imageStore uid menuId input cuid w
        = (inl ExternalServiceError, w')
        /\ db w' = db w)
  /\ (forall i,
         exists e w',
           categoryRouter.update imageStore uid i input w = (inl e, w')
           /\ db w' = db w
           /\ (forall c, find (is_id_userId i uid) (categories (db w)) = Some c ->
                         e = ExternalServiceError)).
Proof.
  intros Ht Hup. split.
  - intros menuId cuid. destruct w as [d t]. unfold_proc. simpl.
    rewrite Ht. simpl. rewrite Hup.
    destruct (blurhash_of imageStore _), (color_of imageStore _); simpl;
      eexists; split; reflexivity.
  - intros i. destruct w as [d t]. unfold_proc. simpl.
    unfold category_findUniqueOrThrow.
    destruct (find (is_id_userId i uid) d.(categories)) as [c|] eqn:Ef; simpl.
    + rewrite Ht. simpl.
      destruct (truthy (Category.imageUrl c)); simpl;
        [destruct (deleteFile_ok imageStore _); simpl|];
        rewrite Hup; simpl; do 2 eexists; repeat split.
    + do 2 eexists. repeat split. intros c [=].
Qed.

Lemma failed_upload_aborts_witness :
  (exists w',
      categoryRouter.create rejecting "alice" "m1" (with_image "Desserts" "iVBORw0KGgo=")
        "C" alice_world = (inl ExternalServiceError, w')
      /\ db w' = db alice_world)
  /\ (exists e w',
         categoryRouter.update rejecting "alice" "A" (with_image "Entrees" "iVBORw0KGgo=")
           alice_world = (inl e, w')
         /\ db w' = db alice_world
         /\ e = ExternalServiceError).
Proof.
  pose proof (failed_upload_aborts rejecting "alice"
                (with_image "Desserts" "iVBORw0KGgo=") alice_world eq_refl eq_refl)
    as [Hc _].
  pose proof (failed_upload_aborts rejecting "alice"
                (with_image "Entrees" "iVBORw0KGgo=") alice_world eq_refl eq_refl)
    as [_ Hu].
  split; [exact (Hc "m1" "C")|].
  destruct (Hu "A") as (e & w' & E & Hdb & He).
  exists e, w'. repeat split; try assumption. exact (He starters eq_refl).
Defined.

(** ** [delete] *)

Lemma delete_not_found imageStore uid i w :
  find (is_id_userId i uid) (categories (db w)) = None ->
  categoryRouter.delete imageStore uid i w = (inl RecordNotFound, w).
Proof.
  intros H. destruct w as [d t]. unfold_proc. simpl in *.
  unfold category_findUniqueOrThrow. now rewrite H.
Qed.

(** The transaction of [delete] on a category the caller owns. *)
Lemma delete_transaction_commits (i uid : string) (imagePaths : list string)
      (d : Store) (c : Category.t) :
  find (is_id_userId i uid) (categories d) = Some c ->
  exists results,
    transaction (delete_transactions i uid imagePaths) d
    = inr (results, after_delete i uid imagePaths d).
Proof.
  intros Hf. unfold delete_transactions, after_delete.
  destruct imagePaths as [|p ps]; simpl;
    unfold unknown, category_delete; simpl; rewrite Hf; simpl; eauto.
Qed.

(** A [delete] of an owned category runs to the end, whatever the image store
    answers. *)
Lemma delete_run imageStore uid i w c :
  find (is_id_userId i uid) (categories (db w)) = Some c ->
  let imagePaths := imagePaths_of (items_of (db w) (Category.id c)) in
  categoryRouter.delete imageStore uid i w
  = (inr (c, items_of (db w) (Category.id c)),
     {| db := after_delete i uid imagePaths (db w);
        trace := trace w ++ delete_trace imageStore c imagePaths |}).
Proof.
  intros Hf imagePaths. destruct w as [d t]. simpl in *.
  destruct (delete_transaction_commits i uid imagePaths d c Hf) as (rs & Htx).
  unfold_proc. unfold category_findUniqueOrThrow. cbn [db trace]. rewrite Hf.
  cbn [fst snd db trace]. fold imagePaths. unfold delete_trace.
  destruct (truthy (Category.imageUrl c));
    [destruct (deleteFile_ok imageStore _)|];
    (destruct (nonempty imagePaths) eqn:En;
     [destruct (bulkDeleteFiles_ok imageStore imagePaths)|]);
    cbn -[transaction delete_transactions after_delete]; rewrite Htx;
    cbn -[after_delete]; rewrite <- ?app_assoc, ?app_nil_r; reflexivity.
Qed.

(** The identifiers [getAll] answers are identifiers of stored rows. *)
Lemma findMany_ids (menuId uid : string) (d : Store) (i : string) :
  In i (ids_of (category_findMany menuId uid d)) ->
  exists x, In x (categories d) /\ Category.id x = i
            /\ in_menu_of menuId uid x = true.
Proof.
  unfold ids_of, category_findMany. rewrite map_map. simpl.
  rewrite in_map_iff. intros (x & Hi & Hx).
  apply orderBy_asc_In in Hx. apply filter_In in Hx. exists x. tauto.
Qed.

(** After the row is deleted its identifier is gone from the table. *)
Lemma deleted_id_gone (i uid : string) (l : list Category.t) (c : Category.t) :
  NoDup (map Category.id l) ->
  find (is_id_userId i uid) l = Some c ->
  ~ In i (map Category.id (filter (fun x => negb (is_id_userId i uid x)) l)).
Proof.
  intros Hnd Hf Hin. apply find_id_userId_Some in Hf.
  destruct Hf as (Hc & Hci & Hcu).
  apply in_map_iff in Hin. destruct Hin as (x & Hxi & Hx).
  apply filter_In in Hx. destruct Hx as [Hx Hk].
  assert (x = c) by (apply (primary_key_unique l); congruence).
  subst x. apply negb_true_iff in Hk.
  assert (is_id_userId i uid c = true) by now apply is_id_userId_true.
  congruence.
Qed.

Lemma items_gone (i : string) (l : list MenuItem.t) :
  filter (fun x => MenuItem.categoryId x =? i)
         (filter (fun x => negb (MenuItem.categoryId x =? i)) l) = [].
Proof.
  induction l as [|y l IH]; simpl; [reflexivity|].
  destruct (MenuItem.categoryId y =? i) eqn:E; simpl; [exact IH|].
  now rewrite E.
Qed.

(** C4. On a [delete] of a category the caller owns, when the image store's
    deleteFile for the category's own image throws, the error is caught and
    only logged, and the procedure still removes the Category row and all its
    MenuItem rows: a [getAll] that follows, for any menu and any caller, does
    not include the deleted id. *)
Theorem delete_survives_image_failure imageStore uid i w c url :
  wf_store (db w) ->
  find (is_id_userId i uid) (categories (db w)) = Some c ->
  Category.imageUrl c = Some url -> url <> "" ->
  deleteFile_ok imageStore url = false ->
  exists w',
    categoryRouter.delete imageStore uid i w = (inr (c, items_of (db w) i), w')
    /\ (exists rest,
           trace w' = trace w ++ DeleteFile url
                              :: ConsoleError "Failed to delete category image:"
                              :: rest)
    /\ ~ In i (map Category.id (categories (db w')))
    /\ items_of (db w') i = []
    /\ forall caller menuId,
        exists l,
          categoryRouter.getAll caller menuId w' = (inr l, w')
          /\ ~ In i (ids_of l).
Proof.
  intros Hwf Hf Hu Hne Hd.
  pose proof (delete_run imageStore uid i w c Hf) as Hrun. cbv zeta in Hrun.
  assert (Hi : Category.id c = i) by (apply find_id_userId_Some in Hf; tauto).
  rewrite Hi in Hrun.
  eexists. split; [exact Hrun|]. simpl.
  assert (Hgone : ~ In i (map Category.id
                     (filter (fun x => negb (is_id_userId i uid x))
                             (categories (db w)))))
    by now apply (deleted_id_gone i uid _ c).
  split; [|split; [exact Hgone | split]].
  - unfold delete_trace. rewrite Hu. simpl.
    apply String.eqb_neq in Hne. rewrite Hne. simpl. rewrite Hd. simpl. eauto.
  - unfold items_of. simpl. apply items_gone.
  - intros caller menuId. eexists. split; [reflexivity|].
    intros Hin. apply findMany_ids in Hin. destruct Hin as (x & Hx & Hxi & _).
    apply Hgone. apply in_map_iff. exists x. split; [exact Hxi | exact Hx].
Qed.

Lemma delete_survives_image_failure_witness :
  exists w',
    categoryRouter.delete cannot_delete "alice" "A" alice_world
    = (inr (starters, [soup; salad]), w')
    /\ categories (db w') = [mains]
    /\ menuItems (db w') = []
    /\ exists l, categoryRouter.getAll "alice" "m1" w' = (inr l, w')
                 /\ ~ In "A" (ids_of l).
Proof.
  assert (Hwf : wf_store (db alice_world)).
  { unfold wf_store. simpl. distinct_keys. }
  assert (Hne : "user/alice/category/old.png" <> "") by discriminate.
  destruct (delete_survives_image_failure cannot_delete "alice" "A" alice_world
              starters "user/alice/category/old.png" Hwf eq_refl eq_refl Hne eq_refl)
    as (w' & Hrun & _ & _ & _ & Hget).
  exists w'. split; [exact Hrun|].
  vm_compute in Hrun. injection Hrun as <-.
  split; [reflexivity|]. split; [reflexivity|]. exact (Hget "alice" "m1").
Defined.

Lemma mem_string_true (x : string) (l : list string) :
  mem_string x l = true <-> In x l.
Proof.
  unfold mem_string. rewrite existsb_exists. split.
  - intros (y & Hy & E). apply String.eqb_eq in E. now subst.
  - intros H. exists x. split; [exact H | apply String.eqb_refl].
Qed.





(** ** [updatePosition] and [getAll] *)

Lemma reposition_one_key (uid : string) (item : positionInput) (j u : string)
      (x : Category.t) :
  is_id_userId j u (reposition_one uid item x) = is_id_userId j u x.
Proof. unfold reposition_one. now destruct (is_id_userId (id item) uid x). Qed.

Lemma find_map_key (j u : string) (g : Category.t -> Category.t) (l : list Category.t) :
  (forall x, is_id_userId j u (g x) = is_id_userId j u x) ->
  find (is_id_userId j u) (map g l) = option_map g (find (is_id_userId j u) l).
Proof.
  intros Hg. induction l as [|y l IH]; simpl; [reflexivity|].
  rewrite Hg. now destruct (is_id_userId j u y).
Qed.

Lemma repositioned_cons (uid : string) (item : positionInput)
      (input : list positionInput) (cs : list Category.t) :
  repositioned uid (item :: input) cs
  = repositioned uid input (map (reposition_one uid item) cs).
Proof. reflexivity. Qed.

(** The caller's rows stay the caller's rows. *)
Lemma owned_after_reposition (uid : string) (item : positionInput) (j : string)
      (l : list Category.t) :
  find (is_id_userId j uid) l <> None ->
  find (is_id_userId j uid) (map (reposition_one uid item) l) <> None.
Proof.
  rewrite (find_map_key j uid (reposition_one uid item))
    by (intros; apply reposition_one_key).
  now destruct (find (is_id_userId j uid) l).
Qed.

Lemma missing_after_reposition (uid : string) (item : positionInput) (j : string)
      (l : list Category.t) :
  find (is_id_userId j uid) l = None ->
  find (is_id_userId j uid) (map (reposition_one uid item) l) = None.
Proof.
  rewrite (find_map_key j uid (reposition_one uid item))
    by (intros; apply reposition_one_key).
  now intros ->.
Qed.

(** When the caller owns every listed category the transaction commits every
    reassignment, whatever the positions are. *)
Lemma position_updates_commit (uid : string) (input : list positionInput) (d : Store) :
  Forall (fun item => find (is_id_userId (id item) uid) (categories d) <> None) input ->
  exists rs,
    transaction (position_updates uid input) d
    = inr (rs, {| categories := repositioned uid input (categories d);
                  menuItems := menuItems d;
                  images := images d;
                  menus := menus d |})
    /\ length rs = length input.
Proof.
  revert d. induction input as [|item input IH]; intros d Hall.
  - destruct d. simpl. eauto.
  - inversion Hall as [|? ? Hitem Hrest]; subst.
    cbn [position_updates map transaction].
    unfold including at 1, category_update at 1.
    destruct (find (is_id_userId (id item) uid) (categories d)) as [c|] eqn:Ef;
      [|congruence].
    fold (position_updates uid input). fold (reposition_one uid item).
    match goal with
    | |- context [transaction _ ?d1] =>
        destruct (IH d1) as (rs & Htx & Hlen)
    end.
    + cbn [categories]. eapply Forall_impl; [|exact Hrest].
      intros j Hj. now apply owned_after_reposition.
    + rewrite Htx. eexists. split; [reflexivity|]. simpl. now rewrite Hlen.
Qed.

(** The transaction of [updatePosition] fails only with not-found. *)
Lemma position_updates_error (uid : string) (input : list positionInput)
      (d : Store) (e : Error) :
  transaction (position_updates uid input) d = inl e -> e = RecordNotFound.
Proof.
  revert d. induction input as [|item input IH]; intros d; [discriminate|].
  cbn [position_updates map transaction].
  unfold including at 1, category_update at 1.
  destruct (find (is_id_userId (id item) uid) (categories d)); [|congruence].
  fold (position_updates uid input).
  match goal with
  | |- context [transaction _ ?d1] =>
      destruct (transaction (position_updates uid input) d1) as [e'|[rs d2]] eqn:Etx
  end; [|discriminate].
  intros [= <-]. eapply IH, Etx.
Qed.

(** One listed identifier that is not the caller's makes the transaction
    fail. *)
Lemma position_updates_reject (uid : string) (input : list positionInput)
      (d : Store) (j : string) :
  In j (map id input) ->
  find (is_id_userId j uid) (categories d) = None ->
  transaction (position_updates uid input) d = inl RecordNotFound.
Proof.
  revert d. induction input as [|item input IH]; intros d Hin Hnone; [destruct Hin|].
  cbn [position_updates map transaction].
  unfold including at 1, category_update at 1.
  destruct (find (is_id_userId (id item) uid) (categories d)) as [c|] eqn:Ef;
    [|reflexivity].
  fold (position_updates uid input). fold (reposition_one uid item).
  destruct Hin as [Hj|Hin]; [cbn in Hj; congruence|].
  rewrite IH; [reflexivity | exact Hin |].
  cbn [categories]. now apply missing_after_reposition.
Qed.

Lemma updatePosition_run (uid : string) (input : list positionInput) (w : World) :
  categoryRouter.updatePosition uid input w
  = await_db (transaction (position_updates uid input)) w.
Proof. reflexivity. Qed.

Lemma updatePosition_not_found (uid : string) (input : list positionInput)
      (w : World) (j : string) :
  In j (map id input) ->
  find (is_id_userId j uid) (categories (db w)) = None ->
  categoryRouter.updatePosition uid input w = (inl RecordNotFound, w).
Proof.
  intros Hin Hnone. rewrite updatePosition_run. unfold await_db.
  now rewrite (position_updates_reject uid input (db w) j Hin Hnone).
Qed.

Lemma getAll_run (uid menuId : string) (d : Store) (t : list Event) :
  categoryRouter.getAll uid menuId {| db := d; trace := t |}
  = (inr (category_findMany menuId uid d), {| db := d; trace := t |}).
Proof. reflexivity. Qed.

Lemma findMany_categories (menuId uid : string) (d : Store) :
  map category (category_findMany menuId uid d)
  = orderBy_asc Category.position (own_categories menuId uid d).
Proof.
  unfold category_findMany, own_categories. rewrite map_map. simpl. apply map_id.
Qed.

Lemma sorted_map_key {A} (key : A -> Z) (l : list A) :
  StronglySorted (ascending key) l -> StronglySorted Z.le (map key l).
Proof.
  induction 1 as [|x l Hs IH Hall]; simpl; constructor; [exact IH|].
  rewrite Forall_forall in *. intros k Hk. apply in_map_iff in Hk.
  destruct Hk as (y & <- & Hy). now apply Hall.
Qed.

(** [getAll] answers in ascending position. *)
Lemma findMany_ascending (menuId uid : string) (d : Store) :
  StronglySorted Z.le (positions_of (category_findMany menuId uid d)).
Proof.
  unfold positions_of.
  rewrite <- (map_map category Category.position), findMany_categories.
  apply sorted_map_key, orderBy_asc_sorted.
Qed.

(** Swapping two owned categories of one menu. *)
Lemma swap_rows (uid A B menuId : string) (cs : list Category.t) (a b : Category.t) :
  find (is_id_userId A uid) cs = Some a ->
  find (is_id_userId B uid) cs = Some b ->
  A <> B ->
  Category.menuId a = menuId -> Category.menuId b = menuId ->
  let cs' := repositioned uid [{| id := A; newPosition := 2 |};
                               {| id := B; newPosition := 1 |}] cs in
  In (apply_position 2 a) (filter (in_menu_of menuId uid) cs')
  /\ In (apply_position 1 b) (filter (in_menu_of menuId uid) cs').
Proof.
  intros Ha Hb Hne Hma Hmb cs'.
  apply find_id_userId_Some in Ha. destruct Ha as (Hina & Hai & Hau).
  apply find_id_userId_Some in Hb. destruct Hb as (Hinb & Hbi & Hbu).
  assert (Ka : is_id_userId A uid a = true) by now apply is_id_userId_true.
  assert (Kb : is_id_userId B uid b = true) by now apply is_id_userId_true.
  assert (Kab : is_id_userId B uid (apply_position 2 a) = false).
  { destruct (is_id_userId B uid (apply_position 2 a)) eqn:E; [|reflexivity].
    apply is_id_userId_true in E. simpl in E. destruct E. congruence. }
  assert (Kba : is_id_userId A uid b = false).
  { destruct (is_id_userId A uid b) eqn:E; [|reflexivity].
    apply is_id_userId_true in E. destruct E. congruence. }
  unfold cs', repositioned. cbn [fold_left]. rewrite map_map.
  split; apply filter_In; split.
  - apply in_map_iff. exists a. split; [|exact Hina].
    unfold reposition_one. cbn [id newPosition]. rewrite Ka, Kab. reflexivity.
  - apply in_menu_of_true. simpl. tauto.
  - apply in_map_iff. exists b. split; [|exact Hinb].
    unfold reposition_one. cbn [id newPosition]. rewrite Kba, Kb. reflexivity.
  - apply in_menu_of_true. simpl. tauto.
Qed.

(** [updatePosition] commits every reassignment or leaves the world alone. *)
Lemma updatePosition_then_positions (uid : string) (input : list positionInput)
      (w : World) :
  (exists rs w',
      categoryRouter.updatePosition uid input w = (inr rs, w')
      /\ categories (db w') = repositioned uid input (categories (db w))
      /\ length rs = length input)
  \/ categoryRouter.updatePosition uid input w = (inl RecordNotFound, w).
Proof.
  rewrite updatePosition_run. unfold await_db.
  destruct (transaction (position_updates uid input) (db w)) as [e|[rs d']] eqn:Etx.
  - right. now rewrite (position_updates_error uid input (db w) e Etx).
  - left.
    assert (Hall : Forall (fun item =>
               find (is_id_userId (id item) uid) (categories (db w)) <> None) input).
    { apply Forall_forall. intros item Hitem Hnone.
      rewrite (position_updates_reject uid input (db w) (id item)) in Etx;
        [discriminate | now apply in_map | exact Hnone]. }
    destruct (position_updates_commit uid input (db w) Hall) as (rs' & Htx & Hlen).
    rewrite Htx in Etx. injection Etx as <- <-.
    do 2 eexists. split; [reflexivity|]. now split.
Qed.

(** C6. [updatePosition] applies the caller-supplied reassignments as one
    transaction: either every one of them is committed or the world is left
    as it was; nothing about the positions is validated, so it succeeds on
    any list whose identifiers are all the caller's; [getAll] answers in
    ascending position; and after
    [updatePosition([{id: A, newPosition: 2}, {id: B, newPosition: 1}])] on
    two owned categories of a menu, [getAll] of that menu has B before A. *)
Theorem updatePosition_then_getAll (uid : string) (w : World) :
  (forall input,
      (exists rs w',
          categoryRouter.updatePosition uid input w = (inr rs, w')
          /\ categories (db w') = repositioned uid input (categories (db w))
          /\ length rs = length input)
      \/ categoryRouter.updatePosition uid input w = (inl RecordNotFound, w))
  /\ (forall input,
         Forall (fun item =>
                   find (is_id_userId (id item) uid) (categories (db w)) <> None)
                input ->
         exists rs w',
           categoryRouter.updatePosition uid input w = (inr rs, w')
           /\ categories (db w') = repositioned uid input (categories (db w)))
  /\ (forall menuId,
         exists l,
           categoryRouter.getAll uid menuId w = (inr l, w)
           /\ StronglySorted Z.le (positions_of l))
  /\ (forall A B a b menuId,
         find (is_id_userId A uid) (categories (db w)) = Some a ->
         find (is_id_userId B uid) (categories (db w)) = Some b ->
         A <> B ->
         Category.menuId a = menuId -> Category.menuId b = menuId ->
         exists rs w' l,
           categoryRouter.updatePosition uid
             [{| id := A; newPosition := 2 |}; {| id := B; newPosition := 1 |}] w
           = (inr rs, w')
           /\ categoryRouter.getAll uid menuId w' = (inr l, w')
           /\ exists l1 l2 l3, ids_of l = l1 ++ B :: l2 ++ A :: l3).
Proof.
  assert (Hcommit : forall input,
             Forall (fun item =>
                       find (is_id_userId (id item) uid) (categories (db w)) <> None)
                    input ->
             exists rs,
               categoryRouter.updatePosition uid input w
               = (inr rs,
                  {| db := {| categories := repositioned uid input (categories (db w));
                              menuItems := menuItems (db w);
                              images := images (db w);
                              menus := menus (db w) |};
                     trace := trace w |})
               /\ length rs = length input).
  { intros input Hall.
    destruct (position_updates_commit uid input (db w) Hall) as (rs & Htx & Hlen).
    exists rs. rewrite updatePosition_run. unfold await_db. rewrite Htx. now split. }
  split; [|split; [|split]].
  - intros input. apply updatePosition_then_positions.
  - intros input Hall. destruct (Hcommit input Hall) as (rs & Hrun & _).
    do 2 eexists. split; [exact Hrun | reflexivity].
  - intros menuId. destruct w as [d t]. eexists. split; [apply getAll_run|].
    apply findMany_ascending.
  - intros A B a b menuId Ha Hb Hne Hma Hmb.
    destruct (Hcommit [{| id := A; newPosition := 2 |};
                       {| id := B; newPosition := 1 |}]) as (rs & Hrun & _).
    { repeat constructor; cbn [id]; congruence. }
    do 3 eexists. split; [exact Hrun|]. split; [apply getAll_run|].
    destruct (swap_rows uid A B menuId (categories (db w)) a b Ha Hb Hne Hma Hmb)
      as [Hina Hinb].
    unfold ids_of. rewrite <- (map_map category Category.id), findMany_categories.
    unfold own_categories. cbn [categories].
    destruct (ascending_before Category.position
                (orderBy_asc Category.position
                   (filter (in_menu_of menuId uid)
                      (repositioned uid [{| id := A; newPosition := 2 |};
                                         {| id := B; newPosition := 1 |}]
                                    (categories (db w)))))
                (apply_position 2 a) (apply_position 1 b))
      as (l1 & l2 & l3 & Hsplit).
    + apply orderBy_asc_sorted.
    + now apply orderBy_asc_In.
    + now apply orderBy_asc_In.
    + simpl. lia.
    + rewrite Hsplit. exists (map Category.id l1), (map Category.id l2),
        (map Category.id l3).
      rewrite map_app. cbn [map]. rewrite map_app. cbn [map apply_position Category.id].
      apply find_id_userId_Some in Ha. apply find_id_userId_Some in Hb.
      destruct Ha as (_ & -> & _), Hb as (_ & -> & _). reflexivity.
Qed.

Lemma updatePosition_then_getAll_witness :
  exists rs w' l,
    categoryRouter.updatePosition "alice"
      [{| id := "A"; newPosition := 2 |}; {| id := "B"; newPosition := 1 |}] alice_world
    = (inr rs, w')
    /\ categoryRouter.getAll "alice" "m1" w' = (inr l, w')
    /\ exists l1 l2 l3, ids_of l = l1 ++ "B" :: l2 ++ "A" :: l3.
Proof.
  assert (Hne : "A" <> "B") by discriminate.
  exact (proj2 (proj2 (proj2 (updatePosition_then_getAll "alice" alice_world)))
           "A" "B" starters mains "m1" eq_refl eq_refl Hne eq_refl eq_refl).
Defined.

(** ** Positions handed out by [create] *)

Lemma greatest_spec (l : list Category.t) :
  match greatest l with
  | Some m => In m l /\ forall c, In c l -> (Category.position c <= Category.position m)%Z
  | None => l = []
  end.
Proof.
  induction l as [|x l IH]; simpl; [reflexivity|].
  destruct (greatest l) as [m|].
  - destruct IH as [Hm Hmax].
    destruct (Z.ltb_spec (Category.position x) (Category.position m)).
    + split; [now right|]. intros c [<-|Hc]; [lia | now apply Hmax].
    + split; [now left|]. intros c [<-|Hc]; [lia|].
      specialize (Hmax c Hc). lia.
  - subst l. split; [now left|]. intros c [<-|[]]. lia.
Qed.

(** A row above all the others, put last, is the one found first. *)
Lemma greatest_app_new (l : list Category.t) (x : Category.t) :
  (forall c, In c l -> (Category.position c < Category.position x)%Z) ->
  greatest (l ++ [x]) = Some x.
Proof.
  induction l as [|y l IH]; intros H; simpl; [reflexivity|].
  rewrite IH by (intros c Hc; apply H; now right).
  destruct (Z.ltb_spec (Category.position y) (Category.position x)) as [_|Hge];
    [reflexivity|].
  specialize (H y (or_introl eq_refl)). lia.
Qed.

Lemma next_position_above (menuId uid : string) (d : Store) (c : Category.t) :
  In c (own_categories menuId uid d) ->
  (Category.position c < next_position menuId uid d)%Z.
Proof.
  unfold next_position, category_findFirst_desc, own_categories. intros Hc.
  pose proof (greatest_spec (filter (in_menu_of menuId uid) (categories d))) as Hg.
  destruct (greatest _) as [m|].
  - destruct Hg as [_ Hmax]. specialize (Hmax c Hc). lia.
  - rewrite Hg in Hc. destruct Hc.
Qed.

(** The position [create] hands out, and the one it will hand out next. *)
Lemma create_next imageStore uid menuId input cuid w r w' :
  categoryRouter.create imageStore uid menuId input cuid w = (inr r, w') ->
  Category.position (category r) = next_position menuId uid (db w)
  /\ next_position menuId uid (db w') = (next_position menuId uid (db w) + 1)%Z.
Proof.
  intros H. apply create_inv in H.
  destruct H as (url & Hr & Hc & _ & _ & _ & _ & _ & _).
  split; [now rewrite Hr|].
  unfold next_position at 1, category_findFirst_desc.
  rewrite Hc, filter_app. cbn [filter].
  assert (Hk : in_menu_of menuId uid (category r) = true).
  { apply in_menu_of_true. rewrite Hr. simpl. tauto. }
  rewrite Hk, greatest_app_new.
  - rewrite Hr. reflexivity.
  - intros c Hin. rewrite Hr. cbn [Category.position].
    now apply next_position_above.
Qed.

Lemma create_in_sequence_positions imageStore uid menuId inputs :
  forall w rs w',
    create_in_sequence imageStore uid menuId inputs w = (inr rs, w') ->
    positions_of rs
    = map (fun k => (next_position menuId uid (db w) + Z.of_nat k)%Z)
          (seq 0 (length inputs)).
Proof.
  induction inputs as [|[input cuid] inputs IH]; intros w rs w'.
  - intros [= <- <-]. reflexivity.
  - cbn [create_in_sequence]. unfold bind at 1.
    destruct (categoryRouter.create imageStore uid menuId input cuid w)
      as [[e|r] w1] eqn:Ec; [discriminate|].
    unfold bind at 1.
    destruct (create_in_sequence imageStore uid menuId inputs w1)
      as [[e|rest] w2] eqn:Es; [discriminate|].
    unfold ret. intros [= <- <-].
    apply create_next in Ec. destruct Ec as [Hp Hn].
    apply IH in Es. cbn [positions_of map length seq] in *.
    rewrite Hp, Z.add_0_r. f_equal.
    fold (positions_of rest). rewrite Es, Hn, <- seq_shift, map_map.
    apply map_ext. intros k. lia.
Qed.

(** New identifiers and no payload: the whole sequence is created. *)
Lemma create_in_sequence_succeeds imageStore uid menuId inputs :
  forall w,
    Forall (fun p => truthy (imageBase64 (fst p)) = false) inputs ->
    NoDup (map snd inputs) ->
    (forall k, In k (map snd inputs) -> ~ In k (map Category.id (categories (db w)))) ->
    exists rs w', create_in_sequence imageStore uid menuId inputs w = (inr rs, w').
Proof.
  induction inputs as [|[input cuid] inputs IH]; intros w Hall Hnd Hfresh.
  - simpl. unfold ret. eauto.
  - inversion Hall as [|? ? Ht Hall']; subst.
    inversion Hnd as [|? ? Hnew Hnd']; subst. cbn [fst snd map] in *.
    destruct (create_succeeds imageStore uid menuId input cuid w Ht) as (r & w1 & Ec).
    { apply Hfresh. now left. }
    destruct (IH w1 Hall' Hnd') as (rest & w2 & Es).
    { intros k Hk Hin. apply create_inv in Ec.
      destruct Ec as (url & Hr & Hc & _).
      rewrite Hc, map_app in Hin. apply in_app_or in Hin.
      destruct Hin as [Hin|Hin].
      - apply (Hfresh k); [now right | exact Hin].
      - rewrite Hr in Hin. simpl in Hin. destruct Hin as [<-|[]]. contradiction. }
    exists (r :: rest), w2. cbn [create_in_sequence]. unfold bind at 1.
    rewrite Ec. unfold bind at 1. rewrite Es. reflexivity.
Qed.

(** C2, as the code has it.  The position of a created category is one more
    than the greatest position among the existing categories of that menu
    that the caller owns, or 0 when the caller owns none there; so the
    categories one caller creates in sequence in a menu where the caller
    owned none get the positions 0, 1, 2, ..., and such a sequence is created
    in full when no input has a payload and the identifiers are new. *)
Theorem create_position imageStore uid menuId :
  (forall input cuid w r w',
      categoryRouter.create imageStore uid menuId input cuid w = (inr r, w') ->
      (own_categories menuId uid (db w) = []
       /\ Category.position (category r) = 0%Z)
      \/ (exists m,
             In m (own_categories menuId uid (db w))
             /\ (forall c, In c (own_categories menuId uid (db w)) ->
                           (Category.position c <= Category.position m)%Z)
             /\ Category.position (category r) = (Category.position m + 1)%Z))
  /\ (forall inputs w rs w',
         create_in_sequence imageStore uid menuId inputs w = (inr rs, w') ->
         own_categories menuId uid (db w) = [] ->
         positions_of rs = map Z.of_nat (seq 0 (length inputs)))
  /\ (forall inputs w,
         Forall (fun p => truthy (imageBase64 (fst p)) = false) inputs ->
         NoDup (map snd inputs) ->
         (forall k, In k (map snd inputs) ->
                    ~ In k (map Category.id (categories (db w)))) ->
         exists rs w',
           create_in_sequence imageStore uid menuId inputs w = (inr rs, w')).
Proof.
  split; [|split].
  - intros input cuid w r w' H. apply create_next in H. destruct H as [Hp _].
    rewrite Hp. unfold next_position, category_findFirst_desc, own_categories.
    pose proof (greatest_spec (filter (in_menu_of menuId uid) (categories (db w))))
      as Hg.
    destruct (greatest _) as [m|].
    + right. exists m. destruct Hg. tauto.
    + left. tauto.
  - intros inputs w rs w' H Hnone.
    rewrite (create_in_sequence_positions _ _ _ _ _ _ _ H).
    unfold next_position, category_findFirst_desc.
    unfold own_categories in Hnone. rewrite Hnone. cbn [greatest].
    apply map_ext. intros k. lia.
  - apply create_in_sequence_succeeds.
Qed.

Lemma create_position_witness :
  exists rs w',
    create_in_sequence rejecting "bob" "m2"
      [(no_image "Starters", "c1"); (no_image "Mains", "c2"); (no_image "Desserts", "c3")]
      alice_world = (inr rs, w')
    /\ positions_of rs = [0; 1; 2]%Z.
Proof.
  destruct (create_position rejecting "bob" "m2") as (_ & Hseq & Hrun).
  destruct (Hrun [(no_image "Starters", "c1"); (no_image "Mains", "c2");
                  (no_image "Desserts", "c3")] alice_world)
    as (rs & w' & E).
  - repeat constructor.
  - simpl. distinct_keys.
  - simpl. intuition (subst; discriminate).
  - exists rs, w'. split; [exact E|]. exact (Hseq _ _ _ _ E eq_refl).
Defined.

(** C2, as the spec has it, fails: a category that another caller created in
    the menu is not counted.  In Bob's menu "m9", still empty, Bob creates a
    category and then Alice creates one: both get position 0, although the
    greatest position in the menu was 0 when Alice's was created. *)
Lemma create_position_counterexample :
  categoryRouter.create resolving "bob" "m9" (no_image "Specials") "S" bob_menu_world
  = (inr {| category := specials; items := [] |}, bob_world)
  /\ map Category.position
         (filter (fun c => Category.menuId c =? "m9") (categories (db bob_world)))
     = [0%Z]
  /\ exists r w',
      categoryRouter.create resolving "alice" "m9" (no_image "Drinks") "D" bob_world
      = (inr r, w')
      /\ Category.position (category r) = 0%Z
      /\ Category.position (category r) <> (0 + 1)%Z
      /\ map Category.position
             (filter (fun c => Category.menuId c =? "m9") (categories (db w')))
         = [0%Z; 0%Z].
Proof.
  split; [reflexivity|]. split; [reflexivity|].
  do 2 eexists. split; [cbv; reflexivity|].
  repeat split. discriminate.
Qed.

(** ** Categories of another user *)




(** ** The primary key is an invariant *)

Lemma NoDup_ids_filter (f : Category.t -> bool) (l : list Category.t) :
  NoDup (map Category.id l) -> NoDup (map Category.id (filter f l)).
Proof.
  induction l as [|x l IH]; simpl; [auto|].
  intros H. inversion H as [|? ? Hx Hl]; subst.
  destruct (f x); simpl; [|now apply IH].
  constructor; [|now apply IH].
  intros Hin. apply Hx. apply in_map_iff in Hin. destruct Hin as (y & Hy & Hin).
  apply filter_In in Hin. apply in_map_iff. exists y. tauto.
Qed.

Lemma ids_after_map (g : Category.t -> Category.t) (l : list Category.t) :
  (forall x, Category.id (g x) = Category.id x) ->
  map Category.id (map g l) = map Category.id l.
Proof. intros Hg. rewrite map_map. now apply map_ext. Qed.

Lemma ids_repositioned (uid : string) (input : list positionInput) (l : list Category.t) :
  map Category.id (repositioned uid input l) = map Category.id l.
Proof.
  revert l. induction input as [|item input IH]; intros l; [reflexivity|].
  rewrite repositioned_cons, IH. apply ids_after_map.
  intros x. unfold reposition_one. now destruct (is_id_userId (id item) uid x).
Qed.

Lemma create_keeps_wf imageStore uid menuId input cuid w r w' :
  categoryRouter.create imageStore uid menuId input cuid w = (inr r, w') ->
  wf_store (db w) -> wf_store (db w').
Proof.
  intros H Hwf. apply create_inv in H.
  destruct H as (url & Hr & Hc & _ & _ & _ & Hfresh & _).
  unfold wf_store in *. rewrite Hc, map_app. cbn [map].
  apply NoDup_app; [exact Hwf | distinct_keys |].
  intros k Hk [Hin|[]]. subst k. rewrite Hr in Hk. now apply Hfresh.
Qed.

Lemma update_keeps_wf imageStore uid i input w c' w' :
  categoryRouter.update imageStore uid i input w = (inr c', w') ->
  wf_store (db w) -> wf_store (db w').
Proof.
  intros H Hwf. apply update_inv in H.
  destruct H as (c & u & _ & _ & _ & _ & _ & Hdb).
  unfold wf_store in *. rewrite Hdb. cbn [categories].
  rewrite ids_after_map; [exact Hwf|].
  intros x. now destruct (is_id_userId i uid x).
Qed.

Lemma delete_keeps_wf imageStore uid i w :
  wf_store (db w) -> wf_store (db (snd (categoryRouter.delete imageStore uid i w))).
Proof.
  intros Hwf.
  destruct (find (is_id_userId i uid) (categories (db w))) as [c|] eqn:Ef.
  - rewrite (delete_run imageStore uid i w c Ef). cbn [snd db].
    unfold wf_store, after_delete. cbn [categories]. now apply NoDup_ids_filter.
  - now rewrite (delete_not_found imageStore uid i w Ef).
Qed.

Lemma updatePosition_keeps_wf uid input w :
  wf_store (db w) -> wf_store (db (snd (categoryRouter.updatePosition uid input w))).
Proof.
  intros Hwf.
  destruct (updatePosition_then_positions uid input w) as [(rs & w' & -> & Hc & _)| ->];
    [|exact Hwf].
  unfold wf_store in *. cbn [snd]. now rewrite Hc, ids_repositioned.
Qed.

(** ** The bypass credential strategy *)

(** C9. [authorize] returns the fixed test identity (id "testUser", email
    "testUser@gmail.com", name "Test User") exactly when the bypass secret is
    set and the supplied loginKey equals it; on every other input, and on
    every input when the secret is not configured, it returns null. *)
Theorem authorize_bypass (key : option string) (credentials : option Credentials) :
  (authorize key credentials = Some testUser
   <-> secret_set key /\ loginKey_of credentials = key)
  /\ (~ (secret_set key /\ loginKey_of credentials = key)
      -> authorize key credentials = None)
  /\ (key = None -> authorize key credentials = None)
  /\ User.id testUser = "testUser"
  /\ User.email testUser = "testUser@gmail.com"
  /\ User.name testUser = "Test User".
Proof.
  assert (Hiff : authorize key credentials = Some testUser
                 <-> secret_set key /\ loginKey_of credentials = key).
  { unfold authorize, secret_set.
    destruct (truthy key) eqn:Ht; simpl.
    - destruct (strict_eq (loginKey_of credentials) key) eqn:He.
      + apply strict_eq_true in He. apply truthy_Some in Ht. tauto.
      + split; [discriminate|]. intros [_ H].
        apply strict_eq_true in H. congruence.
    - split; [discriminate|]. intros [H _].
      apply truthy_Some in H. congruence. }
  split; [exact Hiff|].
  split.
  - intros Hn.
    assert (Hc : authorize key credentials = Some testUser
                 \/ authorize key credentials = None).
    { unfold authorize.
      destruct (truthy key && strict_eq (loginKey_of credentials) key); auto. }
    destruct Hc as [Hc|Hc]; [|exact Hc].
    exfalso. apply Hn, Hiff, Hc.
  - split; [intros ->; reflexivity | repeat split].
Qed.

Lemma authorize_bypass_witness :
  authorize (Some "s3cret") (Some {| loginKey := "s3cret" |}) = Some testUser
  /\ authorize (Some "s3cret") (Some {| loginKey := "guess" |}) = None
  /\ authorize None (Some {| loginKey := "s3cret" |}) = None.
Proof.
  split; [|split].
  - apply (proj1 (authorize_bypass (Some "s3cret") (Some {| loginKey := "s3cret" |}))).
    split; [|reflexivity]. exists "s3cret". split; [reflexivity | discriminate].
  - apply (proj1 (proj2 (authorize_bypass (Some "s3cret") (Some {| loginKey := "guess" |})))).
    intros [_ H]. discriminate H.
  - apply (proj1 (proj2 (proj2 (authorize_bypass None (Some {| loginKey := "s3cret" |}))))).
    reflexivity.
Defined.

(** * Further properties *)

(** ** The base URL *)

Lemma append_empty (a b : string) : (a ++ b)%string = "" -> a = "" /\ b = "".
Proof. destruct a; simpl; [tauto | discriminate]. Qed.

Lemma origin_not_empty (protocol h : string) : origin protocol h <> "".
Proof.
  unfold origin. intros H. apply append_empty in H. destruct H as [_ H].
  discriminate H.
Qed.

Lemma url_of_headers_None (req : option NextApiRequest) :
  url_of_headers req = None <->
  forall r, req = Some r ->
            truthy (x_forwarded_host (headers r)) = false
            /\ truthy (host (headers r)) = false.
Proof.
  destruct req as [r|]; cbn [url_of_headers].
  - unfold js_or.
    destruct (truthy (x_forwarded_host (headers r))) eqn:Ex.
    + rewrite Ex. split; [discriminate|]. intros H.
      destruct (H r eq_refl) as [H1 _]. congruence.
    + destruct (truthy (host (headers r))) eqn:Eh.
      * split; [discriminate|]. intros H.
        destruct (H r eq_refl) as [_ H2]. congruence.
      * split; [intros _ r' [= <-]; now split | reflexivity].
  - split; [intros _ r [=] | reflexivity].
Qed.

Lemma getBaseUrl_not_empty (env : ProcessEnv) (req : option NextApiRequest)
      (url : string) :
  getBaseUrl env req = Some url -> url <> "".
Proof.
  unfold getBaseUrl.
  destruct (truthy (NEXTAUTH_URL env)) eqn:En.
  - intros H. rewrite H in En. apply truthy_Some in En.
    destruct En as (s & [= <-] & Hs). exact Hs.
  - destruct (url_of_headers req) as [u|] eqn:Eh.
    + intros [= <-]. destruct req as [r|]; [|discriminate Eh].
      simpl in Eh. destruct (truthy (js_or _ _)); [|discriminate Eh].
      injection Eh as <-. apply origin_not_empty.
    + destruct (truthy (URL env)) eqn:Eu; [|discriminate].
      intros H. rewrite H in Eu. apply truthy_Some in Eu.
      destruct Eu as (s & [= <-] & Hs). exact Hs.
Qed.

(** X1. [getBaseUrl] is undefined exactly when NEXTAUTH_URL is unset or
    empty, the request is missing or carries neither a forwarded host nor a
    host, and URL is unset or empty; and a base URL it returns is never the
    empty string. *)
Theorem getBaseUrl_defined (env : ProcessEnv) (req : option NextApiRequest) :
  (getBaseUrl env req = None
   <-> truthy (NEXTAUTH_URL env) = false
       /\ (forall r, req = Some r ->
                     truthy (x_forwarded_host (headers r)) = false
                     /\ truthy (host (headers r)) = false)
       /\ truthy (URL env) = false)
  /\ (forall url, getBaseUrl env req = Some url -> url <> "").
Proof.
  unfold getBaseUrl. split.
  - rewrite <- url_of_headers_None.
    destruct (truthy (NEXTAUTH_URL env)) eqn:En.
    + apply truthy_the in En. rewrite En. split; [discriminate|]. intros [H _].
      discriminate H.
    + destruct (url_of_headers req) as [u|].
      * split; [discriminate|]. intros (_ & H & _). discriminate H.
      * destruct (truthy (URL env)) eqn:Eu.
        -- apply truthy_the in Eu. rewrite Eu. split; [discriminate|].
           intros (_ & _ & H). discriminate H.
        -- tauto.
  - intros url. apply getBaseUrl_not_empty.
Qed.

(** X2. With NEXTAUTH_URL unset, a request that carries a forwarded host
    decides the base URL: it is the forwarded protocol, or https when none
    was sent, followed by "://" and the forwarded host, whatever the Host
    header and URL are. *)
Theorem getBaseUrl_forwarded_host (env : ProcessEnv) (r : NextApiRequest) (h : string) :
  truthy (NEXTAUTH_URL env) = false ->
  x_forwarded_host (headers r) = Some h -> h <> "" ->
  getBaseUrl env (Some r)
  = Some (origin (if truthy (x_forwarded_proto (headers r))
                  then the (x_forwarded_proto (headers r))
                  else "https") h).
Proof.
  intros En Hh Hne. unfold getBaseUrl, url_of_headers, js_or.
  rewrite En, Hh. simpl. apply String.eqb_neq in Hne. rewrite Hne. simpl.
  rewrite Hne. simpl.
  now destruct (truthy (x_forwarded_proto (headers r))).
Qed.

Lemma getBaseUrl_forwarded_host_witness :
  getBaseUrl netlify_env (Some proxied_request) = Some "https://menu.example.com".
Proof.
  assert (Hne : "menu.example.com" <> "") by discriminate.
  exact (getBaseUrl_forwarded_host netlify_env proxied_request "menu.example.com"
           eq_refl eq_refl Hne).
Defined.

(** X3. [handler] never overwrites a NEXTAUTH_URL that is set, and once a
    request has resolved a base URL that URL is pinned: NEXTAUTH_URL holds it,
    [getBaseUrl] returns it for every later request, whatever its headers,
    and [handler] changes nothing any more.  A request that resolves nothing
    leaves the environment as it was. *)
Theorem handler_pins_base_url (env : ProcessEnv) (req : NextApiRequest) :
  (truthy (NEXTAUTH_URL env) = true -> handler env req = env)
  /\ (getBaseUrl env (Some req) = None -> handler env req = env)
  /\ URL (handler env req) = URL env
  /\ (forall url,
         getBaseUrl env (Some req) = Some url ->
         NEXTAUTH_URL (handler env req) = Some url
         /\ (forall later, getBaseUrl (handler env req) later = Some url)
         /\ (forall later, handler (handler env req) later = handler env req)).
Proof.
  assert (Hset : forall e r, truthy (NEXTAUTH_URL e) = true -> handler e r = e).
  { intros e r H. unfold handler. rewrite H, andb_false_r. reflexivity. }
  assert (Hget : forall e later url,
             NEXTAUTH_URL e = Some url -> url <> "" -> getBaseUrl e later = Some url).
  { intros e later url H Hne. unfold getBaseUrl. rewrite H. simpl.
    apply String.eqb_neq in Hne. now rewrite Hne. }
  split; [apply Hset|]. split; [|split].
  - intros H. unfold handler. now rewrite H.
  - unfold handler. now destruct (_ && _).
  - intros url Hurl.
    assert (Hne : url <> "") by exact (getBaseUrl_not_empty env (Some req) url Hurl).
    assert (Hn : NEXTAUTH_URL (handler env req) = Some url).
    { unfold handler. rewrite Hurl.
      destruct (truthy (NEXTAUTH_URL env)) eqn:En.
      - rewrite andb_false_r. unfold getBaseUrl in Hurl. now rewrite En in Hurl.
      - simpl. apply String.eqb_neq in Hne. rewrite Hne. reflexivity. }
    split; [exact Hn|]. split.
    + intros later. now apply Hget.
    + intros later. apply Hset. rewrite Hn. simpl.
      apply String.eqb_neq in Hne. now rewrite Hne.
Qed.

Lemma handler_pins_base_url_witness :
  NEXTAUTH_URL (handler netlify_env proxied_request) = Some "https://menu.example.com"
  /\ getBaseUrl (handler netlify_env proxied_request) (Some direct_request)
     = Some "https://menu.example.com".
Proof.
  destruct (handler_pins_base_url netlify_env proxied_request) as (_ & _ & _ & H).
  destruct (H "https://menu.example.com" eq_refl) as (Hn & Hl & _).
  split; [exact Hn | exact (Hl (Some direct_request))].
Defined.

(** ** The session callback *)

(** X4. The session callback changes at most the id of the session's user:
    a session without a user, or a token without a subject, comes back as it
    was; otherwise the user's id becomes the token's subject while name,
    email, image and expiry stay; and applying the callback a second time
    with the same token changes nothing more. *)
Theorem session_callback_frame (s : Session) (token : JWT) :
  session (session s token) token = session s token
  /\ expires (session s token) = expires s
  /\ (user s = None -> session s token = s)
  /\ (truthy (sub token) = false -> session s token = s)
  /\ (forall u,
         user s = Some u ->
         exists u',
           user (session s token) = Some u'
           /\ SessionUser.name u' = SessionUser.name u
           /\ SessionUser.email u' = SessionUser.email u
           /\ SessionUser.image u' = SessionUser.image u
           /\ (truthy (sub token) = true -> SessionUser.id u' = sub token)
           /\ (truthy (sub token) = false -> SessionUser.id u' = SessionUser.id u)).
Proof.
  unfold session. destruct s as [[u|] e]; simpl.
  - destruct (truthy (sub token)) eqn:Et; simpl; rewrite ?Et; simpl.
    + repeat split; try reflexivity; try discriminate.
      intros u0 [= <-]. eexists. split; [reflexivity|].
      repeat split; try reflexivity. discriminate.
    + repeat split; try reflexivity; try discriminate.
      intros u0 [= <-]. exists u. repeat split; try reflexivity. discriminate.
  - repeat split; try reflexivity. intros u [=].
Qed.

(** ** What [getAll] answers *)

Lemma include_items_ordered_ext (d d' : Store) (c : Category.t) :
  menuItems d' = menuItems d -> images d' = images d ->
  include_items_ordered d' c = include_items_ordered d c.
Proof.
  intros Hi Him. unfold include_items_ordered, items_of, image_of.
  now rewrite Hi, Him.
Qed.

Lemma findMany_In (menuId uid : string) (d : Store) (x : CategoryWithItems) :
  In x (category_findMany menuId uid d) ->
  x = include_items_ordered d (category x)
  /\ In (category x) (own_categories menuId uid d).
Proof.
  unfold category_findMany. intros H. apply in_map_iff in H.
  destruct H as (c & <- & Hc). split; [reflexivity|].
  now apply orderBy_asc_In in Hc.
Qed.

(** X5. [getAll] changes nothing and answers with the caller's categories of
    the menu, each exactly once and in ascending position; every category
    comes with exactly its own items, in ascending position, each with the
    image record its imageId names. *)
Theorem getAll_lists_own_categories (uid menuId : string) (w : World) :
  exists l,
    categoryRouter.getAll uid menuId w = (inr l, w)
    /\ Permutation (map category l) (own_categories menuId uid (db w))
    /\ StronglySorted Z.le (positions_of l)
    /\ forall x,
        In x l ->
        Category.menuId (category x) = menuId
        /\ Category.userId (category x) = uid
        /\ Permutation (map item (items x))
                       (items_of (db w) (Category.id (category x)))
        /\ StronglySorted Z.le (map (fun i => MenuItem.position (item i)) (items x))
        /\ forall i, In i (items x) -> image i = image_of (db w) (item i).
Proof.
  destruct w as [d t]. eexists. split; [apply getAll_run|]. cbn [db].
  split; [rewrite findMany_categories; apply orderBy_asc_perm|].
  split; [apply findMany_ascending|].
  intros x Hx. apply findMany_In in Hx. destruct Hx as [Hx Hown].
  unfold own_categories in Hown. apply filter_In in Hown.
  destruct Hown as [_ Hk]. apply in_menu_of_true in Hk. destruct Hk as [Hm Hu].
  split; [exact Hm|]. split; [exact Hu|].
  rewrite Hx. cbn [items category include_items_ordered].
  rewrite !map_map. cbn [item]. rewrite map_id.
  split; [apply orderBy_asc_perm|]. split.
  - apply (sorted_map_key MenuItem.position), orderBy_asc_sorted.
  - intros i Hi. apply in_map_iff in Hi. destruct Hi as (it & <- & _). reflexivity.
Qed.

(** ** [create] and the listing *)

Section InsertLast.
Context {A : Type} (key : A -> Z).

Lemma insert_by_before_last (y x : A) (l : list A) :
  (key y <= key x)%Z ->
  insert_by key y (l ++ [x]) = insert_by key y l ++ [x].
Proof.
  intros Hle. induction l as [|z l IH]; simpl.
  - destruct (Z.leb_spec (key y) (key x)); [reflexivity | lia].
  - destruct (key y <=? key z)%Z; [reflexivity|]. now rewrite IH.
Qed.

(** A row whose key is not below any other, put last, is listed last. *)
Lemma orderBy_asc_last (x : A) (l : list A) :
  (forall y, In y l -> (key y <= key x)%Z) ->
  orderBy_asc key (l ++ [x]) = orderBy_asc key l ++ [x].
Proof.
  unfold orderBy_asc. induction l as [|y l IH]; intros H; simpl; [reflexivity|].
  rewrite IH by (intros z Hz; apply H; now right).
  apply insert_by_before_last. apply H. now left.
Qed.

(** A change of the rows that keeps the keys commutes with the ordering. *)
Lemma orderBy_asc_map (g : A -> A) (l : list A) :
  (forall x, key (g x) = key x) ->
  orderBy_asc key (map g l) = map g (orderBy_asc key l).
Proof.
  intros Hg. unfold orderBy_asc. induction l as [|y l IH]; simpl; [reflexivity|].
  rewrite IH. generalize (fold_right (insert_by key) [] l). intros s.
  induction s as [|z s IHs]; simpl; [reflexivity|].
  rewrite !Hg. destruct (key y <=? key z)%Z; simpl; [reflexivity|].
  now rewrite IHs.
Qed.
End InsertLast.

Lemma filter_map_keep {A} (p : A -> bool) (g : A -> A) (l : list A) :
  (forall x, p (g x) = p x) -> filter p (map g l) = map g (filter p l).
Proof.
  intros Hg. induction l as [|y l IH]; simpl; [reflexivity|].
  rewrite Hg. destruct (p y); simpl; now rewrite IH.
Qed.

(** The listing of a menu after a row was appended to the table. *)
Lemma findMany_after_append (menuId uid : string) (d d' : Store) (r : Category.t) :
  categories d' = categories d ++ [r] ->
  menuItems d' = menuItems d -> images d' = images d ->
  category_findMany menuId uid d'
  = if in_menu_of menuId uid r
    then map (include_items_ordered d)
             (orderBy_asc Category.position (own_categories menuId uid d ++ [r]))
    else category_findMany menuId uid d.
Proof.
  intros Hc Hi Him. unfold category_findMany, own_categories.
  rewrite Hc, filter_app. cbn [filter].
  destruct (in_menu_of menuId uid r); rewrite ?app_nil_r;
    apply map_ext; intros c; now apply include_items_ordered_ext.
Qed.

(** The listing of the menu after a successful [create]. *)
Lemma create_findMany imageStore uid menuId input cuid w r w' :
  categoryRouter.create imageStore uid menuId input cuid w = (inr r, w') ->
  category_findMany menuId uid (db w')
  = category_findMany menuId uid (db w) ++ [include_items_ordered (db w) (category r)]
  /\ Category.id (category r) = cuid.
Proof.
  intros H. apply create_inv in H.
  destruct H as (url & Hr & Hc & Hi & Him & _).
  split; [|now rewrite Hr].
  rewrite (findMany_after_append menuId uid (db w) (db w') (category r) Hc Hi Him).
  assert (Hk : in_menu_of menuId uid (category r) = true).
  { apply in_menu_of_true. rewrite Hr. simpl. tauto. }
  rewrite Hk, orderBy_asc_last, map_app; [reflexivity|].
  intros y Hy. apply (next_position_above menuId uid (db w)) in Hy.
  rewrite Hr. cbn [Category.position]. lia.
Qed.

(** X6. A category that was just created is the last one of its menu in the
    caller's listing: [getAll] after a successful [create] answers what it
    answered before, followed by the new category. *)
Theorem create_lists_last imageStore uid menuId input cuid w r w' :
  categoryRouter.create imageStore uid menuId input cuid w = (inr r, w') ->
  exists before,
    categoryRouter.getAll uid menuId w = (inr before, w)
    /\ categoryRouter.getAll uid menuId w'
       = (inr (before ++ [include_items_ordered (db w) (category r)]), w')
    /\ Category.id (category r) = cuid.
Proof.
  intros H. apply create_findMany in H. destruct H as [Hl Hid].
  destruct w as [d t], w' as [d' t']. cbn [db] in *.
  eexists. split; [apply getAll_run|]. split; [|exact Hid].
  rewrite getAll_run. now rewrite Hl.
Qed.

Lemma create_lists_last_witness :
  exists r w',
    categoryRouter.create resolving "alice" "m1" (no_image "Desserts") "C" alice_world
    = (inr r, w')
    /\ exists l, categoryRouter.getAll "alice" "m1" w' = (inr l, w')
                 /\ ids_of l = ["A"; "B"; "C"].
Proof.
  destruct (categoryRouter.create resolving "alice" "m1" (no_image "Desserts") "C"
              alice_world) as [[e|r] w'] eqn:E.
  - vm_compute in E. discriminate E.
  - exists r, w'. split; [reflexivity|].
    destruct (create_lists_last _ _ _ _ _ _ _ _ E) as (before & Hb & Ha & Hid).
    eexists. split; [exact Ha|].
    vm_compute in Hb. injection Hb as <-.
    unfold ids_of. rewrite map_app. cbn [map category include_items_ordered].
    rewrite Hid. reflexivity.
Defined.

(** X7. A [create] changes no other listing: what [getAll] answers to
    another caller, or to the same caller for another menu, is the same
    before and after. *)
Theorem create_keeps_other_listings imageStore uid menuId input cuid w r w'
        (caller menu : string) :
  categoryRouter.create imageStore uid menuId input cuid w = (inr r, w') ->
  caller <> uid \/ menu <> menuId ->
  fst (categoryRouter.getAll caller menu w') = fst (categoryRouter.getAll caller menu w).
Proof.
  intros H Hother. apply create_inv in H.
  destruct H as (url & Hr & Hc & Hi & Him & _).
  destruct w as [d t], w' as [d' t']. cbn [db] in *.
  rewrite !getAll_run. cbn [fst]. f_equal.
  rewrite (findMany_after_append menu caller d d' (category r) Hc Hi Him).
  destruct (in_menu_of menu caller (category r)) eqn:Hk; [|reflexivity].
  apply in_menu_of_true in Hk. rewrite Hr in Hk. cbn in Hk.
  destruct Hk as [<- <-]. tauto.
Qed.

Lemma create_keeps_other_listings_witness :
  exists r w',
    categoryRouter.create resolving "bob" "m1" (no_image "Drinks") "D" alice_world
    = (inr r, w')
    /\ fst (categoryRouter.getAll "alice" "m1" w')
       = fst (categoryRouter.getAll "alice" "m1" alice_world).
Proof.
  destruct (categoryRouter.create resolving "bob" "m1" (no_image "Drinks") "D"
              alice_world) as [[e|r] w'] eqn:E.
  - vm_compute in E. discriminate E.
  - exists r, w'. split; [reflexivity|].
    apply (create_keeps_other_listings _ _ _ _ _ _ _ _ "alice" "m1" E).
    left. discriminate.
Defined.

(** ** [create] and [update] with the image store *)

(** X8. A [create] with a payload whose upload, hash and colour extraction
    all resolve, and whose identifier is new, issues exactly those three
    calls, succeeds, and stores the uploaded file path as imageUrl; the hash
    and the colour are not stored: the row is the same whatever they are. *)
Theorem create_with_image imageStore uid menuId input cuid w filePath hash colour :
  truthy (imageBase64 input) = true ->
  upload_filePath imageStore (the (imageBase64 input)) (category_folder uid)
  = Some filePath ->
  blurhash_of imageStore (the (imageBase64 input)) = Some hash ->
  color_of imageStore (the (imageBase64 input)) = Some colour ->
  ~ In cuid (map Category.id (categories (db w))) ->
  exists r w',
    categoryRouter.create imageStore uid menuId input cuid w = (inr r, w')
    /\ category r = with_imageUrl filePath (createData_of uid menuId input cuid (db w))
    /\ trace w' = trace w ++ [UploadImage (the (imageBase64 input)) (category_folder uid);
                              EncodeImageToBlurhash (the (imageBase64 input));
                              GetColor (the (imageBase64 input))].
Proof.
  intros Ht Hup Hh Hc Hfresh. destruct w as [d t]. apply fresh_id in Hfresh.
  unfold_proc. simpl in *. rewrite Ht. simpl. rewrite Hup, Hh, Hc. simpl.
  unfold category_create. simpl. rewrite Hfresh. simpl.
  do 2 eexists. split; [reflexivity|]. split; [reflexivity|].
  simpl. now rewrite <- !app_assoc.
Qed.

Lemma create_with_image_witness :
  exists r w',
    categoryRouter.create resolving "alice" "m1" (with_image "Desserts" "iVBORw0KGgo=")
      "C" alice_world = (inr r, w')
    /\ Category.imageUrl (category r) = Some "user/alice/category/new.png"
    /\ Category.position (category r) = 2%Z.
Proof.
  destruct (create_with_image resolving "alice" "m1"
              (with_image "Desserts" "iVBORw0KGgo=") "C" alice_world
              "user/alice/category/new.png" "LEHV6nWB2yk8" "#a0b1c2"
              eq_refl eq_refl eq_refl eq_refl) as (r & w' & E & Hr & _).
  - simpl. intros [H|[H|[]]]; discriminate H.
  - exists r, w'. split; [exact E|]. rewrite Hr. split; reflexivity.
Defined.

(** X9. When the hash or the colour extraction rejects, [create] fails and
    creates no row, although neither value would have been stored; the upload
    had been issued all the same. *)
Theorem create_aborts_on_hash_or_colour imageStore uid menuId input cuid w :
  truthy (imageBase64 input) = true ->
  blurhash_of imageStore (the (imageBase64 input)) = None
  \/ color_of imageStore (the (imageBase64 input)) = None ->
  exists w',
    categoryRouter.create imageStore uid menuId input cuid w
    = (inl ExternalServiceError, w')
    /\ db w' = db w
    /\ trace w' = trace w ++ [UploadImage (the (imageBase64 input)) (category_folder uid);
                              EncodeImageToBlurhash (the (imageBase64 input));
                              GetColor (the (imageBase64 input))].
Proof.
  intros Ht Hrej. destruct w as [d t]. unfold_proc. simpl. rewrite Ht. simpl.
  destruct (upload_filePath imageStore _ _) as [p|];
    destruct (blurhash_of imageStore _) as [h|];
    destruct (color_of imageStore _) as [k|]; simpl;
    try (destruct Hrej; discriminate);
    eexists; (split; [reflexivity|]); (split; [reflexivity|]);
    simpl; now rewrite <- !app_assoc.
Qed.

Lemma create_aborts_on_hash_or_colour_witness :
  exists w',
    categoryRouter.create
      {| upload_filePath := fun _ folder => Some (folder ++ "/new.png")%string;
         blurhash_of := fun _ => Some "LEHV6nWB2yk8";
         color_of := fun _ => None;
         deleteFile_ok := fun _ => true;
         bulkDeleteFiles_ok := fun _ => true |}
      "alice" "m1" (with_image "Desserts" "iVBORw0KGgo=") "C" alice_world
    = (inl ExternalServiceError, w')
    /\ db w' = db alice_world.
Proof.
  destruct (create_aborts_on_hash_or_colour
              {| upload_filePath := fun _ folder => Some (folder ++ "/new.png")%string;
                 blurhash_of := fun _ => Some "LEHV6nWB2yk8";
                 color_of := fun _ => None;
                 deleteFile_ok := fun _ => true;
                 bulkDeleteFiles_ok := fun _ => true |}
              "alice" "m1" (with_image "Desserts" "iVBORw0KGgo=") "C" alice_world
              eq_refl (or_intror eq_refl)) as (w' & E & Hdb & _).
  exists w'. split; [exact E | exact Hdb].
Defined.

(** X10. An [update] without a payload on a category the caller owns always
    succeeds, calls nothing on the image store, and changes the name only. *)
Theorem update_without_image imageStore uid i input w c :
  find (is_id_userId i uid) (categories (db w)) = Some c ->
  truthy (imageBase64 input) = false ->
  exists w',
    categoryRouter.update imageStore uid i input w
    = (inr {| Category.id := Category.id c;
              Category.menuId := Category.menuId c;
              Category.userId := Category.userId c;
              Category.name := name input;
              Category.position := Category.position c;
              Category.imageUrl := Category.imageUrl c |}, w')
    /\ trace w' = trace w.
Proof.
  intros Hf Ht. destruct w as [d t]. unfold_proc. simpl in *.
  unfold category_findUniqueOrThrow, category_update. rewrite Hf. simpl.
  rewrite Ht. simpl. rewrite Hf. eexists. split; reflexivity.
Qed.

Lemma update_without_image_witness :
  exists w',
    categoryRouter.update rejecting "alice" "A" (no_image "Entrees") alice_world
    = (inr {| Category.id := "A"; Category.menuId := "m1"; Category.userId := "alice";
              Category.name := "Entrees"; Category.position := 0%Z;
              Category.imageUrl := Some "user/alice/category/old.png" |}, w')
    /\ trace w' = [].
Proof.
  exact (update_without_image rejecting "alice" "A" (no_image "Entrees") alice_world
           starters eq_refl eq_refl).
Defined.

(** X11. When the upload of a replacement image rejects, the deletion of the
    previous image has already been issued and is not undone: [update] fails,
    and the category still carries the previous imageUrl. *)
Theorem update_failed_replacement imageStore uid i input w c url :
  find (is_id_userId i uid) (categories (db w)) = Some c ->
  truthy (imageBase64 input) = true ->
  Category.imageUrl c = Some url -> url <> "" ->
  upload_filePath imageStore (the (imageBase64 input)) (category_folder uid) = None ->
  exists w',
    categoryRouter.update imageStore uid i input w = (inl ExternalServiceError, w')
    /\ (exists before after, trace w' = before ++ DeleteFile url :: after)
    /\ find (is_id_userId i uid) (categories (db w')) = Some c
    /\ Category.imageUrl c = Some url.
Proof.
  intros Hf Ht Hu Hne Hup. destruct w as [d t]. unfold_proc. simpl in *.
  unfold category_findUniqueOrThrow. rewrite Hf. simpl. rewrite Ht, Hu. simpl.
  apply String.eqb_neq in Hne. rewrite Hne. simpl.
  destruct (deleteFile_ok imageStore url); simpl; rewrite Hup; simpl;
    eexists; (split; [reflexivity|]); simpl;
    (split; [|split; [exact Hf | reflexivity]]);
    exists t; eexists; rewrite <- !app_assoc; reflexivity.
Qed.

Lemma update_failed_replacement_witness :
  exists w',
    categoryRouter.update rejecting "alice" "A" (with_image "Entrees" "iVBORw0KGgo=")
      alice_world = (inl ExternalServiceError, w')
    /\ find (is_id_userId "A" "alice") (categories (db w')) = Some starters.
Proof.
  assert (Hne : "user/alice/category/old.png" <> "") by discriminate.
  destruct (update_failed_replacement rejecting "alice" "A"
              (with_image "Entrees" "iVBORw0KGgo=") alice_world starters
              "user/alice/category/old.png" eq_refl eq_refl eq_refl Hne eq_refl)
    as (w' & E & _ & Hf & _).
  exists w'. split; [exact E | exact Hf].
Defined.

(** ** [update] and the listing *)

(** X12. A successful [update] reorders nothing: for every caller and every
    menu, [getAll] answers the same identifiers at the same positions, in the
    same order, as before. *)
Theorem update_keeps_listing_order imageStore uid i input w c' w'
        (caller menu : string) :
  categoryRouter.update imageStore uid i input w = (inr c', w') ->
  exists before after,
    categoryRouter.getAll caller menu w = (inr before, w)
    /\ categoryRouter.getAll caller menu w' = (inr after, w')
    /\ ids_of after = ids_of before
    /\ positions_of after = positions_of before.
Proof.
  intros H. apply update_inv in H.
  destruct H as (c & u & _ & _ & _ & _ & _ & Hdb).
  destruct w as [d t], w' as [d' t']. cbn [db] in *.
  do 2 eexists. split; [apply getAll_run|]. split; [apply getAll_run|].
  unfold ids_of, positions_of.
  rewrite <- !(map_map category Category.id),
    <- !(map_map category Category.position), !findMany_categories.
  unfold own_categories. rewrite Hdb. cbn [categories].
  set (g := fun x => if is_id_userId i uid x then apply_updateData u x else x).
  assert (Hid : forall x, Category.id (g x) = Category.id x)
    by (intros x; unfold g; now destruct (is_id_userId i uid x)).
  assert (Hpos : forall x, Category.position (g x) = Category.position x)
    by (intros x; unfold g; now destruct (is_id_userId i uid x)).
  rewrite filter_map_keep, orderBy_asc_map, !map_map by
    (try exact Hpos; intros x; unfold g, in_menu_of;
     now destruct (is_id_userId i uid x)).
  split; apply map_ext; [exact Hid | exact Hpos].
Qed.

Lemma update_keeps_listing_order_witness :
  exists c' w' after,
    categoryRouter.update resolving "alice" "A" (with_image "Zakuski" "iVBORw0KGgo=")
      alice_world = (inr c', w')
    /\ categoryRouter.getAll "alice" "m1" w' = (inr after, w')
    /\ ids_of after = ["A"; "B"].
Proof.
  destruct (categoryRouter.update resolving "alice" "A"
              (with_image "Zakuski" "iVBORw0KGgo=") alice_world)
    as [[e|c'] w'] eqn:E.
  - vm_compute in E. discriminate E.
  - destruct (update_keeps_listing_order _ _ _ _ _ _ _ "alice" "m1" E)
      as (before & after & Hb & Ha & Hids & _).
    exists c', w', after. split; [reflexivity|]. split; [exact Ha|].
    rewrite Hids. vm_compute in Hb. injection Hb as <-. reflexivity.
Defined.

(** ** What [delete] removes *)

(** X13. A [delete] of a category the caller owns removes that category, the
    items of that category and the image records those items name, and
    nothing else: every other category, item and image record stays as it
    was (positions are not renumbered), and so does the menu table. *)
Theorem delete_removes_exactly imageStore uid i w c :
  find (is_id_userId i uid) (categories (db w)) = Some c ->
  exists w',
    categoryRouter.delete imageStore uid i w
    = (inr (c, items_of (db w) (Category.id c)), w')
    /\ (forall x, In x (categories (db w'))
                  <-> In x (categories (db w))
                      /\ ~ (Category.id x = i /\ Category.userId x = uid))
    /\ (forall it, In it (menuItems (db w'))
                   <-> In it (menuItems (db w)) /\ MenuItem.categoryId it <> i)
    /\ (forall im, In im (images (db w'))
                   <-> In im (images (db w))
                       /\ ~ In (Image.id im)
                              (imagePaths_of (items_of (db w) (Category.id c))))
    /\ menus (db w') = menus (db w).
Proof.
  intros Hf. eexists. split; [exact (delete_run imageStore uid i w c Hf)|].
  cbn [db after_delete categories menuItems images menus].
  split; [|split; [|split; [|reflexivity]]].
  - intros x. rewrite filter_In, negb_true_iff.
    rewrite <- is_id_userId_true.
    destruct (is_id_userId i uid x); intuition congruence.
  - intros it. rewrite filter_In, negb_true_iff, String.eqb_neq. tauto.
  - intros im.
    destruct (imagePaths_of (items_of (db w) (Category.id c))) as [|p ps] eqn:Ep;
      cbn [nonempty].
    + simpl. tauto.
    + rewrite filter_In, negb_true_iff, <- mem_string_true.
      destruct (mem_string (Image.id im) (p :: ps)); intuition congruence.
Qed.

Lemma delete_removes_exactly_witness :
  exists w',
    categoryRouter.delete resolving "alice" "A" alice_world
    = (inr (starters, [soup; salad]), w')
    /\ In mains (categories (db w'))
    /\ ~ In starters (categories (db w')).
Proof.
  destruct (delete_removes_exactly resolving "alice" "A" alice_world starters eq_refl)
    as (w' & E & Hc & _).
  exists w'. split; [exact E|]. split.
  - apply Hc. split; [right; now left|]. intros [H _]. discriminate H.
  - intros H. apply Hc in H. destruct H as [_ H]. apply H. now split.
Defined.

(** X14. Once a category is deleted its identifier is dead: a second
    [delete], an [update] or an [updatePosition] that names it, by any
    caller, fails with not-found and changes nothing. *)
Theorem delete_then_not_found imageStore uid i w c :
  wf_store (db w) ->
  find (is_id_userId i uid) (categories (db w)) = Some c ->
  exists w',
    categoryRouter.delete imageStore uid i w
    = (inr (c, items_of (db w) (Category.id c)), w')
    /\ forall caller,
        categoryRouter.delete imageStore caller i w' = (inl RecordNotFound, w')
        /\ (forall input,
               categoryRouter.update imageStore caller i input w'
               = (inl RecordNotFound, w'))
        /\ (forall input,
               In i (map id input) ->
               categoryRouter.updatePosition caller input w'
               = (inl RecordNotFound, w')).
Proof.
  intros Hwf Hf. eexists. split; [exact (delete_run imageStore uid i w c Hf)|].
  intros caller.
  assert (Hnone : find (is_id_userId i caller)
                       (filter (fun x => negb (is_id_userId i uid x))
                               (categories (db w))) = None).
  { apply find_id_userId_None. intros x Hx [Hi _].
    apply (deleted_id_gone i uid (categories (db w)) c Hwf Hf).
    apply in_map_iff. exists x. now split. }
  split; [|split].
  - now apply delete_not_found.
  - intros input. now apply update_not_found.
  - intros input Hin. now apply (updatePosition_not_found caller input _ i).
Qed.

Lemma delete_then_not_found_witness :
  exists w',
    categoryRouter.delete resolving "alice" "A" alice_world
    = (inr (starters, [soup; salad]), w')
    /\ categoryRouter.delete resolving "alice" "A" w' = (inl RecordNotFound, w').
Proof.
  assert (Hwf : wf_store (db alice_world)) by (unfold wf_store; simpl; distinct_keys).
  destruct (delete_then_not_found resolving "alice" "A" alice_world starters Hwf eq_refl)
    as (w' & E & H).
  exists w'. split; [exact E | exact (proj1 (H "alice"))].
Defined.

(** X15. [delete] calls the image store only for what is there: deleteFile
    is issued exactly when the category has a non-empty imageUrl (and a line
    is logged exactly when it then rejects), and bulkDeleteFiles exactly when
    an item of the category has a non-empty imageId, with all those ids;
    nothing else is added to the trace, and without item images the image
    table is untouched. *)
Theorem delete_image_calls imageStore uid i w c :
  find (is_id_userId i uid) (categories (db w)) = Some c ->
  let imagePaths := imagePaths_of (items_of (db w) i) in
  let w' := snd (categoryRouter.delete imageStore uid i w) in
  trace w' = trace w ++ delete_trace imageStore c imagePaths
  /\ (forall e,
         In e (delete_trace imageStore c imagePaths)
         <-> (truthy (Category.imageUrl c) = true
              /\ (e = DeleteFile (the (Category.imageUrl c))
                  \/ (deleteFile_ok imageStore (the (Category.imageUrl c)) = false
                      /\ e = ConsoleError "Failed to delete category image:")))
             \/ (imagePaths <> [] /\ e = BulkDeleteFiles imagePaths))
  /\ (imagePaths = [] -> images (db w') = images (db w)).
Proof.
  intros Hf imagePaths w'.
  assert (Hi : Category.id c = i) by (apply find_id_userId_Some in Hf; tauto).
  pose proof (delete_run imageStore uid i w c Hf) as Hrun. cbv zeta in Hrun.
  rewrite Hi in Hrun. fold imagePaths in Hrun.
  unfold w'. rewrite Hrun. cbn [snd db trace].
  split; [reflexivity|]. split.
  - intros e. unfold delete_trace. rewrite in_app_iff.
    assert (Hb : In e (if nonempty imagePaths then [BulkDeleteFiles imagePaths] else [])
                 <-> imagePaths <> [] /\ e = BulkDeleteFiles imagePaths).
    { destruct imagePaths as [|p ps]; simpl.
      - tauto.
      - split; [intros [<-|[]]; split; [discriminate | reflexivity]|].
        intros [_ ->]. now left. }
    rewrite Hb. apply or_iff_compat_r.
    destruct (truthy (Category.imageUrl c)); [|simpl; intuition discriminate].
    destruct (deleteFile_ok imageStore (the (Category.imageUrl c))); simpl.
    + split; [intros [<-|[]]; auto|].
      intros [_ [->|[H _]]]; [now left | discriminate H].
    + split; [intros [<-|[<-|[]]]; auto|].
      intros [_ [->|[_ ->]]]; auto.
  - intros Hnil. unfold after_delete. cbn [images]. now rewrite Hnil.
Qed.

Lemma delete_image_calls_witness :
  trace (snd (categoryRouter.delete resolving "alice" "B" alice_world)) = []
  /\ images (db (snd (categoryRouter.delete resolving "alice" "B" alice_world)))
     = [{| Image.id := "img1" |}].
Proof.
  destruct (delete_image_calls resolving "alice" "B" alice_world mains eq_refl)
    as (Ht & _ & Him).
  split; [rewrite Ht; reflexivity | exact (Him eq_refl)].
Defined.

(** ** What [updatePosition] returns and leaves *)

Lemma repositioned_final (uid : string) (input : list positionInput)
      (cs : list Category.t) :
  repositioned uid input cs = map (final_row uid input) cs.
Proof.
  revert cs. induction input as [|item input IH]; intros cs.
  - cbn. rewrite <- (map_id cs) at 1. apply map_ext. intros x.
    unfold final_row. cbn. now destruct (Category.userId x =? uid).
  - rewrite repositioned_cons, IH, map_map. apply map_ext. intros x.
    unfold final_row, reposition_one, is_id_userId. cbn [last_position].
    rewrite (String.eqb_sym (id item) (Category.id x)).
    destruct (Category.userId x =? uid) eqn:Eu;
      destruct (Category.id x =? id item) eqn:Ei; cbn [andb];
      cbn [apply_position Category.userId Category.id]; rewrite ?Eu;
      destruct (last_position (Category.id x) input); reflexivity.
Qed.

Lemma last_position_None (i : string) (input : list positionInput) :
  ~ In i (map id input) -> last_position i input = None.
Proof.
  induction input as [|item input IH]; intros Hnot; [reflexivity|].
  cbn [last_position]. rewrite IH by (intros H; apply Hnot; now right).
  destruct (id item =? i) eqn:E; [|reflexivity].
  apply String.eqb_eq in E. exfalso. apply Hnot. now left.
Qed.

(** A committed transaction of [updatePosition] found every row it names. *)
Lemma position_updates_owned (uid : string) (input : list positionInput)
      (d d' : Store) (rs : list CategoryWithItems) :
  transaction (position_updates uid input) d = inr (rs, d') ->
  Forall (fun item => find (is_id_userId (id item) uid) (categories d) <> None) input.
Proof.
  intros Etx. apply Forall_forall. intros item Hitem Hnone.
  rewrite (position_updates_reject uid input d (id item)) in Etx;
    [discriminate | now apply in_map | exact Hnone].
Qed.

Lemma position_updates_results (uid : string) (input : list positionInput) :
  forall d rs d',
    transaction (position_updates uid input) d = inr (rs, d') ->
    ids_of rs = map id input /\ positions_of rs = map newPosition input.
Proof.
  induction input as [|item input IH]; intros d rs d'.
  - intros [= <- <-]. now split.
  - cbn [position_updates map transaction].
    unfold including at 1, category_update at 1.
    destruct (find (is_id_userId (id item) uid) (categories d)) as [c|] eqn:Ef;
      [|discriminate].
    fold (position_updates uid input).
    match goal with
    | |- context [transaction _ ?d1] =>
        destruct (transaction (position_updates uid input) d1) as [e|[rest d2]] eqn:Etx
    end; [discriminate|].
    intros [= <- <-]. apply IH in Etx. destruct Etx as [Hids Hpos].
    apply find_id_userId_Some in Ef. destruct Ef as (_ & Hi & _).
    unfold ids_of, positions_of in *. cbn [map category include_items apply_position
      Category.id Category.position]. now rewrite Hids, Hpos, Hi.
Qed.

(** X16. A successful [updatePosition] answers with one category per entry
    of the input, in input order, each with the identifier and the new
    position of its entry; on the empty input it succeeds with the empty
    answer and changes nothing. *)
Theorem updatePosition_answer (uid : string) (input : list positionInput)
        (w : World) (rs : list CategoryWithItems) (w' : World) :
  categoryRouter.updatePosition uid input w = (inr rs, w') ->
  ids_of rs = map id input
  /\ positions_of rs = map newPosition input
  /\ trace w' = trace w
  /\ (input = [] -> rs = [] /\ db w' = db w).
Proof.
  rewrite updatePosition_run. unfold await_db.
  destruct (transaction (position_updates uid input) (db w)) as [e|[rs0 d']] eqn:Etx;
    [discriminate|].
  intros [= <- <-]. cbn [db trace].
  destruct (position_updates_results uid input (db w) rs0 d' Etx) as [Hids Hpos].
  split; [exact Hids|]. split; [exact Hpos|]. split; [reflexivity|].
  intros ->. cbn in Etx. injection Etx as <- <-. now split.
Qed.

Lemma updatePosition_answer_witness :
  exists rs w',
    categoryRouter.updatePosition "alice"
      [{| id := "B"; newPosition := 5 |}; {| id := "A"; newPosition := 5 |}] alice_world
    = (inr rs, w')
    /\ ids_of rs = ["B"; "A"]
    /\ positions_of rs = [5; 5]%Z.
Proof.
  destruct (categoryRouter.updatePosition "alice"
              [{| id := "B"; newPosition := 5 |}; {| id := "A"; newPosition := 5 |}]
              alice_world) as [[e|rs] w'] eqn:E.
  - vm_compute in E. discriminate E.
  - exists rs, w'. split; [reflexivity|].
    destruct (updatePosition_answer _ _ _ _ _ E) as (Hids & Hpos & _).
    split; assumption.
Defined.

(** X17. After a successful [updatePosition] every category of the caller
    that the input names has the position of the last entry that names it;
    every other category, every field other than position, and the item,
    image and menu tables are as before. *)
Theorem updatePosition_final_positions (uid : string) (input : list positionInput)
        (w : World) (rs : list CategoryWithItems) (w' : World) :
  categoryRouter.updatePosition uid input w = (inr rs, w') ->
  categories (db w') = map (final_row uid input) (categories (db w))
  /\ menuItems (db w') = menuItems (db w)
  /\ images (db w') = images (db w)
  /\ menus (db w') = menus (db w)
  /\ (forall x,
         final_row uid input x = apply_position (Category.position (final_row uid input x)) x
         /\ (Category.userId x <> uid -> final_row uid input x = x)
         /\ (~ In (Category.id x) (map id input) -> final_row uid input x = x)).
Proof.
  rewrite updatePosition_run. unfold await_db.
  destruct (transaction (position_updates uid input) (db w)) as [e|[rs0 d']] eqn:Etx;
    [discriminate|].
  intros [= <- <-]. cbn [db].
  pose proof (position_updates_owned uid input (db w) d' rs0 Etx) as Hall.
  destruct (position_updates_commit uid input (db w) Hall) as (rs1 & Htx & _).
  rewrite Htx in Etx. injection Etx as _ <-. cbn [categories menuItems images menus].
  split; [apply repositioned_final|]. do 3 (split; [reflexivity|]).
  intros x. unfold final_row. split; [|split].
  - destruct (Category.userId x =? uid);
      [destruct (last_position (Category.id x) input)|]; now destruct x.
  - intros Hu. apply String.eqb_neq in Hu. now rewrite Hu.
  - intros Hnot.
    pose proof (last_position_None (Category.id x) input Hnot) as Hl.
    rewrite Hl. now destruct (Category.userId x =? uid).
Qed.

Lemma updatePosition_final_positions_witness :
  exists rs w',
    categoryRouter.updatePosition "alice"
      [{| id := "A"; newPosition := 7 |}; {| id := "A"; newPosition := 3 |}] alice_world
    = (inr rs, w')
    /\ map Category.position (categories (db w')) = [3; 1]%Z.
Proof.
  destruct (categoryRouter.updatePosition "alice"
              [{| id := "A"; newPosition := 7 |}; {| id := "A"; newPosition := 3 |}]
              alice_world) as [[e|rs] w'] eqn:E.
  - vm_compute in E. discriminate E.
  - exists rs, w'. split; [reflexivity|].
    destruct (updatePosition_final_positions _ _ _ _ _ E) as (Hc & _).
    rewrite Hc. reflexivity.
Defined.

(** ** What failed procedures leave *)

Lemma create_failure_db imageStore uid menuId input cuid w e w' :
  categoryRouter.create imageStore uid menuId input cuid w = (inl e, w') ->
  db w' = db w.
Proof.
  destruct w as [d t]. unfold_proc. simpl.
  destruct (truthy (imageBase64 input)); simpl.
  - destruct (upload_filePath imageStore _ _) as [p|];
      destruct (blurhash_of imageStore _) as [h|];
      destruct (color_of imageStore _) as [k|]; simpl;
      try (intros [= <- <-]; reflexivity);
      unfold category_create; simpl; destruct (existsb _ _); simpl;
      try discriminate; intros [= <- <-]; reflexivity.
  - unfold category_create. simpl. destruct (existsb _ _); simpl;
      try discriminate. intros [= <- <-]. reflexivity.
Qed.

Lemma update_failure_db imageStore uid i input w e w' :
  categoryRouter.update imageStore uid i input w = (inl e, w') ->
  db w' = db w.
Proof.
  destruct w as [d t]. unfold_proc. simpl.
  unfold category_findUniqueOrThrow, category_update.
  destruct (find (is_id_userId i uid) (categories d)) as [c|] eqn:Ef; simpl;
    [|intros [= <- <-]; reflexivity].
  destruct (truthy (imageBase64 input)); simpl.
  - destruct (truthy (Category.imageUrl c)); simpl;
      [destruct (deleteFile_ok imageStore _); simpl|];
      (destruct (upload_filePath imageStore _ _) as [p|]; simpl;
       [rewrite Ef; discriminate | intros [= <- <-]; reflexivity]).
  - rewrite Ef. discriminate.
Qed.

(** ** Rows of other users *)

(** X18. No procedure touches a category of another user: whatever a caller
    asks of [create], [update], [delete], [updatePosition] or [getAll], with
    whatever arguments and whatever the outcome, every category owned by
    someone else is in the store afterwards exactly as it was. *)
Theorem other_users_categories_untouched imageStore uid w (x : Category.t) :
  In x (categories (db w)) ->
  Category.userId x <> uid ->
  (forall menuId input cuid,
      In x (categories (db (snd (categoryRouter.create imageStore uid menuId input cuid w)))))
  /\ (forall i input,
         In x (categories (db (snd (categoryRouter.update imageStore uid i input w)))))
  /\ (forall i,
         In x (categories (db (snd (categoryRouter.delete imageStore uid i w)))))
  /\ (forall input,
         In x (categories (db (snd (categoryRouter.updatePosition uid input w)))))
  /\ (forall menuId, db (snd (categoryRouter.getAll uid menuId w)) = db w).
Proof.
  intros Hx Hu.
  assert (Hkey : forall i, is_id_userId i uid x = false).
  { intros i. destruct (is_id_userId i uid x) eqn:E; [|reflexivity].
    apply is_id_userId_true in E. tauto. }
  split; [|split; [|split; [|split]]].
  - intros menuId input cuid.
    destruct (categoryRouter.create imageStore uid menuId input cuid w)
      as [[e|r] w'] eqn:E; cbn [snd].
    + now rewrite (create_failure_db _ _ _ _ _ _ _ _ E).
    + apply create_inv in E. destruct E as (url & _ & Hc & _).
      rewrite Hc. apply in_or_app. now left.
  - intros i input.
    destruct (categoryRouter.update imageStore uid i input w)
      as [[e|c'] w'] eqn:E; cbn [snd].
    + now rewrite (update_failure_db _ _ _ _ _ _ _ E).
    + apply update_inv in E. destruct E as (c & u & _ & _ & _ & _ & _ & Hdb).
      rewrite Hdb. cbn [categories]. apply in_map_iff. exists x.
      split; [now rewrite Hkey | exact Hx].
  - intros i.
    destruct (find (is_id_userId i uid) (categories (db w))) as [c|] eqn:Ef.
    + rewrite (delete_run imageStore uid i w c Ef). cbn [snd db after_delete categories].
      apply filter_In. split; [exact Hx | now rewrite Hkey].
    + now rewrite (delete_not_found imageStore uid i w Ef).
  - intros input.
    destruct (updatePosition_then_positions uid input w)
      as [(rs & w' & -> & Hc & _)| ->]; cbn [snd]; [|exact Hx].
    rewrite Hc, repositioned_final. apply in_map_iff. exists x.
    split; [|exact Hx]. unfold final_row.
    apply String.eqb_neq in Hu. now rewrite Hu.
  - intros menuId. now destruct w.
Qed.

Lemma other_users_categories_untouched_witness :
  In specials
     (categories (db (snd (categoryRouter.updatePosition "alice"
                             [{| id := "S"; newPosition := 9 |}] bob_world))))
  /\ In specials
        (categories (db (snd (categoryRouter.create resolving "alice" "m9"
                                (no_image "Drinks") "D" bob_world)))).
Proof.
  assert (Hin : In specials (categories (db bob_world))) by now left.
  assert (Hu : Category.userId specials <> "alice") by discriminate.
  destruct (other_users_categories_untouched resolving "alice" bob_world specials Hin Hu)
    as (Hc & _ & _ & Hp & _).
  split; [apply Hp | apply Hc].
Defined.

(** ** Positions *)

(** X19. [create] keeps positions distinct: if, for some caller and menu, no
    two of the caller's categories of the menu share a position, the same
    holds after any successful [create]. *)
Theorem create_keeps_positions_distinct imageStore uid menuId input cuid w r w'
        (caller menu : string) :
  categoryRouter.create imageStore uid menuId input cuid w = (inr r, w') ->
  NoDup (map Category.position (own_categories menu caller (db w))) ->
  NoDup (map Category.position (own_categories menu caller (db w'))).
Proof.
  intros H Hnd. apply create_inv in H.
  destruct H as (url & Hr & Hc & _).
  unfold own_categories in *. rewrite Hc, filter_app. cbn [filter].
  destruct (in_menu_of menu caller (category r)) eqn:Hk;
    [|now rewrite app_nil_r].
  apply in_menu_of_true in Hk. rewrite Hr in Hk. cbn in Hk. destruct Hk as [<- <-].
  rewrite map_app. cbn [map].
  apply NoDup_app; [exact Hnd | distinct_keys |].
  intros p Hp [Hq|[]]. apply in_map_iff in Hp. destruct Hp as (y & Hy & Hin).
  apply (next_position_above menuId uid (db w)) in Hin.
  rewrite Hr in Hq. cbn in Hq. lia.
Qed.

Lemma create_keeps_positions_distinct_witness :
  exists r w',
    categoryRouter.create resolving "alice" "m1" (no_image "Desserts") "C" alice_world
    = (inr r, w')
    /\ NoDup (map Category.position (own_categories "m1" "alice" (db w'))).
Proof.
  destruct (categoryRouter.create resolving "alice" "m1" (no_image "Desserts") "C"
              alice_world) as [[e|r] w'] eqn:E.
  - vm_compute in E. discriminate E.
  - exists r, w'. split; [reflexivity|].
    apply (create_keeps_positions_distinct _ _ _ _ _ _ _ _ "alice" "m1" E).
    simpl. repeat (apply NoDup_cons; [simpl; intuition lia|]). apply NoDup_nil.
Defined.

(** X20. Categories are listed in the order of their creation: after a
    caller created a sequence of categories in a menu, [getAll] answers what
    it answered before, followed by the new categories in creation order. *)
Theorem create_in_sequence_listing imageStore uid menuId inputs :
  forall w rs w',
    create_in_sequence imageStore uid menuId inputs w = (inr rs, w') ->
    ids_of rs = map snd inputs
    /\ exists before after,
        categoryRouter.getAll uid menuId w = (inr before, w)
        /\ categoryRouter.getAll uid menuId w' = (inr after, w')
        /\ ids_of after = ids_of before ++ map snd inputs.
Proof.
  assert (Hlist : forall w rs w',
             create_in_sequence imageStore uid menuId inputs w = (inr rs, w') ->
             ids_of rs = map snd inputs
             /\ ids_of (category_findMany menuId uid (db w'))
                = ids_of (category_findMany menuId uid (db w)) ++ map snd inputs).
  { induction inputs as [|[input cuid] inputs IH]; intros w rs w'.
    - intros [= <- <-]. split; [reflexivity | now rewrite app_nil_r].
    - cbn [create_in_sequence]. unfold bind at 1.
      destruct (categoryRouter.create imageStore uid menuId input cuid w)
        as [[e|r] w1] eqn:Ec; [discriminate|].
      unfold bind at 1.
      destruct (create_in_sequence imageStore uid menuId inputs w1)
        as [[e|rest] w2] eqn:Es; [discriminate|].
      unfold ret. intros [= <- <-].
      apply create_findMany in Ec. destruct Ec as [Hl Hid].
      apply IH in Es. destruct Es as [Hrs Hafter].
      unfold ids_of in *. cbn [map snd]. split; [now rewrite Hrs, Hid|].
      rewrite Hafter, Hl, map_app. cbn [map category include_items_ordered].
      now rewrite Hid, <- app_assoc. }
  intros w rs w' H. apply Hlist in H. destruct H as [Hrs Hids].
  split; [exact Hrs|]. destruct w as [d t], w' as [d' t'].
  do 2 eexists. split; [apply getAll_run|]. split; [apply getAll_run | exact Hids].
Qed.

Lemma create_in_sequence_listing_witness :
  exists rs w' after,
    create_in_sequence rejecting "alice" "m1"
      [(no_image "Desserts", "C"); (no_image "Drinks", "D")] alice_world = (inr rs, w')
    /\ categoryRouter.getAll "alice" "m1" w' = (inr after, w')
    /\ ids_of after = ["A"; "B"; "C"; "D"].
Proof.
  destruct (create_in_sequence rejecting "alice" "m1"
              [(no_image "Desserts", "C"); (no_image "Drinks", "D")] alice_world)
    as [[e|rs] w'] eqn:E.
  - vm_compute in E. discriminate E.
  - destruct (create_in_sequence_listing _ _ _ _ _ _ _ E)
      as (_ & before & after & Hb & Ha & Hids).
    exists rs, w', after. split; [reflexivity|]. split; [exact Ha|].
    rewrite Hids. vm_compute in Hb. injection Hb as <-. reflexivity.
Defined.

(** ** [delete] and the listing *)

Section FilterOrdered.
Context {A : Type} (key : A -> Z) (p : A -> bool).

Lemma insert_by_head (x : A) (l : list A) :
  Forall (fun y => key x <= key y)%Z l -> insert_by key x l = x :: l.
Proof.
  destruct 1 as [|y l Hy _]; simpl; [reflexivity|].
  destruct (Z.leb_spec (key x) (key y)); [reflexivity | lia].
Qed.

Lemma filter_insert_by (x : A) (s : list A) :
  StronglySorted (ascending key) s ->
  filter p (insert_by key x s)
  = if p x then insert_by key x (filter p s) else filter p s.
Proof.
  induction 1 as [|y s Hs IH Hall]; simpl.
  - now destruct (p x).
  - destruct (Z.leb_spec (key x) (key y)) as [Hle|Hlt]; simpl.
    + destruct (p x) eqn:Ex; [|reflexivity].
      destruct (p y) eqn:Ey; simpl.
      * destruct (Z.leb_spec (key x) (key y)); [reflexivity | lia].
      * symmetry. apply insert_by_head. rewrite Forall_forall in *.
        intros z Hz. apply filter_In in Hz. destruct Hz as [Hz _].
        specialize (Hall z Hz). unfold ascending in Hall. lia.
    + rewrite IH. destruct (p x) eqn:Ex; destruct (p y) eqn:Ey; simpl;
        try reflexivity.
      destruct (Z.leb_spec (key x) (key y)); [lia | reflexivity].
Qed.

(** Leaving rows out commutes with the ordering. *)
Lemma orderBy_asc_filter (l : list A) :
  orderBy_asc key (filter p l) = filter p (orderBy_asc key l).
Proof.
  induction l as [|x l IH]; [reflexivity|].
  change (orderBy_asc key (x :: l)) with (insert_by key x (orderBy_asc key l)).
  rewrite filter_insert_by by apply orderBy_asc_sorted.
  cbn [filter]. destruct (p x); [|exact IH].
  change (orderBy_asc key (x :: filter p l))
    with (insert_by key x (orderBy_asc key (filter p l))).
  now rewrite IH.
Qed.
End FilterOrdered.

Lemma filter_filter_comm {A} (p q : A -> bool) (l : list A) :
  filter p (filter q l) = filter q (filter p l).
Proof.
  induction l as [|x l IH]; simpl; [reflexivity|].
  destruct (p x) eqn:Ep, (q x) eqn:Eq; simpl; rewrite ?Ep, ?Eq, IH; reflexivity.
Qed.

(** X21. A [delete] reorders nothing: for every caller and every menu, the
    categories [getAll] answers afterwards are those it answered before
    without the deleted one, in the same order. *)
Theorem delete_keeps_listing_order imageStore uid i w c (caller menu : string) :
  find (is_id_userId i uid) (categories (db w)) = Some c ->
  exists w' before after,
    categoryRouter.delete imageStore uid i w
    = (inr (c, items_of (db w) (Category.id c)), w')
    /\ categoryRouter.getAll caller menu w = (inr before, w)
    /\ categoryRouter.getAll caller menu w' = (inr after, w')
    /\ map category after
       = filter (fun x => negb (is_id_userId i uid x)) (map category before).
Proof.
  intros Hf. destruct w as [d t].
  eexists. do 2 eexists.
  split; [exact (delete_run imageStore uid i _ c Hf)|].
  split; [apply getAll_run|]. split; [apply getAll_run|].
  rewrite !findMany_categories. unfold own_categories.
  cbn [db after_delete categories].
  now rewrite filter_filter_comm, orderBy_asc_filter.
Qed.

Lemma delete_keeps_listing_order_witness :
  exists w' after,
    categoryRouter.delete resolving "alice" "A" alice_world
    = (inr (starters, [soup; salad]), w')
    /\ categoryRouter.getAll "alice" "m1" w' = (inr after, w')
    /\ map category after = [mains].
Proof.
  destruct (delete_keeps_listing_order resolving "alice" "A" alice_world starters
              "alice" "m1" eq_refl) as (w' & before & after & E & Hb & Ha & Hl).
  exists w', after. split; [exact E|]. split; [exact Ha|].
  rewrite Hl. vm_compute in Hb. injection Hb as <-. reflexivity.
Defined.

(** ** The primary key, whatever the outcome *)

(** X22. Identifiers stay unique: if no two categories of the store share an
    id, the same holds after [create], [update], [delete], [updatePosition]
    and [getAll], whatever their arguments and outcome (the store itself
    refusing a [create] whose generated id is taken). *)
Theorem primary_key_kept imageStore uid w :
  wf_store (db w) ->
  (forall menuId input cuid,
      wf_store (db (snd (categoryRouter.create imageStore uid menuId input cuid w))))
  /\ (forall i input,
         wf_store (db (snd (categoryRouter.update imageStore uid i input w))))
  /\ (forall i, wf_store (db (snd (categoryRouter.delete imageStore uid i w))))
  /\ (forall input, wf_store (db (snd (categoryRouter.updatePosition uid input w))))
  /\ (forall menuId, wf_store (db (snd (categoryRouter.getAll uid menuId w)))).
Proof.
  intros Hwf. split; [|split; [|split; [|split]]].
  - intros menuId input cuid.
    destruct (categoryRouter.create imageStore uid menuId input cuid w)
      as [[e|r] w'] eqn:E; cbn [snd].
    + now rewrite (create_failure_db _ _ _ _ _ _ _ _ E).
    + exact (create_keeps_wf _ _ _ _ _ _ _ _ E Hwf).
  - intros i input.
    destruct (categoryRouter.update imageStore uid i input w)
      as [[e|c'] w'] eqn:E; cbn [snd].
    + now rewrite (update_failure_db _ _ _ _ _ _ _ E).
    + exact (update_keeps_wf _ _ _ _ _ _ _ E Hwf).
  - intros i. now apply delete_keeps_wf.
  - intros input. now apply updatePosition_keeps_wf.
  - intros menuId. now destruct w.
Qed.

Lemma primary_key_kept_witness :
  wf_store (db (snd (categoryRouter.create resolving "alice" "m1"
                       (no_image "Again") "A" alice_world)))
  /\ wf_store (db (snd (categoryRouter.delete resolving "alice" "A" alice_world))).
Proof.
  assert (Hwf : wf_store (db alice_world)) by (unfold wf_store; simpl; distinct_keys).
  destruct (primary_key_kept resolving "alice" alice_world Hwf) as (Hc & _ & Hd & _).
  split; [apply Hc | apply Hd].
Defined.
